(** * autoky: keyword extraction rows, CSV records and viewer filtering

    A shallow embedding of [autoky.py].

    - A Python [str] is a [string] whose characters are read as the code
      points 0..255 they carry; on such text [lower], [strip], [split] and
      the two regular expressions of [parse_csv_file] are Python's.
    - An [int] is a [Z].  [int] of a run of digits is its decimal value,
      and raises [ValueError] when the run has more than 4300 digits, the
      limit of the interpreter.
    - A [set] of strings is a [gset string]; loops are left folds over the
      list they iterate.
    - What depends on the machine (the file system, the HTTP endpoint,
      hashing, JSON decoding, whether Pillow is installed, whether Tk
      starts) is a field of [World].  A call that can fail returns an
      [outcome]; the exceptions are those below [Exception], which is what
      the [except] clauses of the program take.  The probes of the file
      system ([exists], [is_file], [is_dir], [resolve], [rglob]) are taken
      to answer; [Path().glob] raises on a pattern that is not relative.
    - The command line is what [argparse] made of it: the parsed
      arguments, or the status it left the program with.
    - Standard output, standard error and the start of the GUI are an
      [Output], threaded through the monad [IO.io].  The Tk widgets are not
      modelled beyond the three values [_apply_filters] reads. *)

From Stdlib Require Import ZArith String Ascii Sorting.Sorted DecimalString.
From stdpp Require Import base decidable option list sets gmap strings.

Local Open Scope string_scope.
Local Open Scope list_scope.

#[local] Set Warnings "-clear-no-such-hyp,-register-all".

(** ** Characters and text primitives *)

Module Text.

Definition code (c : ascii) : N := N_of_ascii c.

Definition between (lo hi : N) (c : ascii) : bool :=
  (lo <=? code c)%N && (code c <=? hi)%N.

(** [str.isspace] on one character, also the class [\s] of [re]. *)
Definition isspace (c : ascii) : bool :=
  between 9 13 c || between 28 32 c || (code c =? 133)%N || (code c =? 160)%N.

(** The class [\d] of [re]. *)
Definition isdigit (c : ascii) : bool := between 48 57 c.

(** The class [[a-fA-F0-9]]. *)
Definition ishex (c : ascii) : bool :=
  between 97 102 c || between 65 70 c || between 48 57 c.

Definition lower_char (c : ascii) : ascii :=
  if between 65 90 c || (between 192 222 c && negb (code c =? 215)%N)
  then ascii_of_N (code c + 32)
  else c.

(** [str.lower] *)
Fixpoint lower (s : string) : string :=
  match s with
  | EmptyString => EmptyString
  | String c r => String (lower_char c) (lower r)
  end.

Fixpoint lstrip (s : string) : string :=
  match s with
  | EmptyString => EmptyString
  | String c r => if isspace c then lstrip r else s
  end.

Fixpoint rstrip (s : string) : string :=
  match s with
  | EmptyString => EmptyString
  | String c r =>
      match rstrip r with
      | EmptyString => if isspace c then EmptyString else String c EmptyString
      | r' => String c r'
      end
  end.

(** [str.strip()] *)
Definition strip (s : string) : string := rstrip (lstrip s).

(** [str.split(sep)] for a one-character separator: never empty. *)
Fixpoint split (sep : ascii) (s : string) : list string :=
  match s with
  | EmptyString => [EmptyString]
  | String c r =>
      if Ascii.eqb c sep then EmptyString :: split sep r
      else match split sep r with
           | h :: t => String c h :: t
           | [] => [String c EmptyString]
           end
  end.

(** Truth value of a [str]: non-empty. *)
Definition truthy (s : string) : bool :=
  match s with EmptyString => false | String _ _ => true end.

(** The comprehension [[x.strip() for x in xs if x.strip()]]. *)
Definition stripped_nonempty (xs : list string) : list string :=
  strip <$> filter (λ x, truthy (strip x) = true) xs.

(** [a in b] on strings: [a] occurs in [b] as a contiguous substring. *)
Fixpoint contains (a b : string) : bool :=
  String.prefix a b ||
  match b with
  | EmptyString => false
  | String _ r => contains a r
  end.

(** Longest prefix whose characters satisfy [p], and the rest. *)
Fixpoint span (p : ascii → bool) (s : string) : string * string :=
  match s with
  | EmptyString => (EmptyString, EmptyString)
  | String c r =>
      if p c then let '(a, b) := span p r in (String c a, b)
      else (EmptyString, s)
  end.

(** The decimal value of a run of digits. *)
Definition int_of_digits (ds : string) : Z :=
  foldl (λ acc c, acc * 10 + Z.of_N (code c - 48))%Z 0%Z (list_ascii_of_string ds).

(** [str(n)] for an [int]. *)
Definition str_of_int (n : Z) : string := NilZero.string_of_int (Z.to_int n).

(** The order [list.sort] uses on keys: code point by code point. *)
Definition key_le {A : Type} (key : A → string) (a b : A) : Prop :=
  String.leb (key a) (key b) = true.

Section StableSort.
Context {A : Type} (key : A → string).

Fixpoint insert_by_key (x : A) (l : list A) : list A :=
  match l with
  | [] => [x]
  | y :: r =>
      if String.leb (key x) (key y) then x :: l else y :: insert_by_key x r
  end.

(** [l.sort(key=key)]: the sort is stable, so the result is fixed by the
    order of the keys and the original positions. *)
Definition sort_by_key (l : list A) : list A :=
  foldr insert_by_key [] l.
End StableSort.

End Text.

Import Text.

(** ** Extraction mode: [process_keywords] *)

Definition keyword_parts (raw_text : string) : list string :=
  stripped_nonempty (split "," raw_text).

Definition dedup_step (st : gset string * list string) (kw : string)
  : gset string * list string :=
  let '(seen, cleaned) := st in
  let low := lower kw in
  if decide (low ∈ seen) then st
  else ({[low]} ∪ seen, cleaned ++ [kw]).

Definition process_keywords (raw_text sha256_hex : string) : list string :=
  let parts := keyword_parts raw_text in
  let '(_, cleaned) := foldl dedup_step (∅, []) parts in
  sort_by_key lower cleaned ++ [sha256_hex].

(** ** The model: [ImageData] *)

Record ImageData := {
  filename : string;
  keywords : list string;
  rank : Z;
  hash_code : string;
  full_path : option string
}.

Definition matches_keywords (self : ImageData) (filter_keywords : list string)
    (partial : bool) : bool :=
  match filter_keywords with
  | [] => true
  | _ =>
      if partial then
        existsb (λ k, existsb (λ kw, contains (lower k) (lower kw)) (keywords self))
                filter_keywords
      else
        let lower_set : gset string := list_to_set (lower <$> keywords self) in
        existsb (λ k, bool_decide (lower k ∈ lower_set)) filter_keywords
  end.

Definition matches_rank (self : ImageData) (min_rank : Z) : bool :=
  (rank self >=? min_rank)%Z.

(** ** The viewer: filter state and [_apply_filters]

    Of [ImageViewer] the record keeps the record lists, the counters and
    the three inputs [_apply_filters] reads from the widgets: the text of
    [keyword_entry], [rank_var] and [partial_match]. *)

Record ImageViewer := {
  all_images : list ImageData;
  filtered_images : list ImageData;
  current_index : nat;
  duplicates_count : nat;
  keyword_entry : string;
  rank_var : Z;
  partial_match : bool
}.

Definition filter_kws_of (entry : string) : list string :=
  let kw_text := strip entry in
  if truthy kw_text then stripped_nonempty (split "," kw_text) else [].

Definition filter_step (filter_kws : list string) (min_rank : Z) (partial : bool)
    (st : list ImageData * gset string * nat) (img : ImageData)
  : list ImageData * gset string * nat :=
  let '(filtered, seen, duplicates) := st in
  if matches_keywords img filter_kws partial && matches_rank img min_rank then
    if decide (hash_code img ∈ seen) then (filtered, seen, S duplicates)
    else (filtered ++ [img], {[hash_code img]} ∪ seen, duplicates)
  else st.

Definition _apply_filters (self : ImageViewer) : ImageViewer :=
  let filter_kws := filter_kws_of (keyword_entry self) in
  let min_rank := rank_var self in
  let partial := partial_match self in
  let '(filtered, _, duplicates) :=
    foldl (filter_step filter_kws min_rank partial) ([], ∅, 0) (all_images self) in
  {| all_images := all_images self;
     filtered_images := filtered;
     current_index := 0;
     duplicates_count := duplicates;
     keyword_entry := keyword_entry self;
     rank_var := rank_var self;
     partial_match := partial_match self |}.

(** The viewer once [_apply_filters] has run on a record list with the
    three filter widgets in a given state.  [ImageViewer.__init__] runs it
    with an empty entry, rank 1 and exact matching. *)
Definition viewer_with (images : list ImageData) (entry : string) (min_rank : Z)
    (partial : bool) : ImageViewer :=
  _apply_filters
    {| all_images := images; filtered_images := []; current_index := 0;
       duplicates_count := 0; keyword_entry := entry; rank_var := min_rank;
       partial_match := partial |}.

(** ** Exceptions and outcomes *)

(** Exceptions below [Exception], by the [except] clause that takes them:
    [HTTPError] before [URLError] before everything else, which carries
    its [str(e)]. *)
Inductive exn :=
| HTTPError (code : Z) (reason : string) (body : string)
| URLError (reason : string)
| OtherError (message : string).

(** [str(e)] *)
Definition exn_str (e : exn) : string :=
  match e with
  | HTTPError code reason _ => "HTTP Error " +:+ str_of_int code +:+ ": " +:+ reason
  | URLError reason => "<urlopen error " +:+ reason +:+ ">"
  | OtherError message => message
  end.

Inductive outcome (A : Type) :=
| Returns (a : A)
| Raises (e : exn).
Arguments Returns {A} a.
Arguments Raises {A} e.

#[global] Instance outcome_ret : MRet outcome := @Returns.
#[global] Instance outcome_bind : MBind outcome :=
  λ A B k r, match r with
             | Returns a => k a
             | Raises e => Raises e
             end.

(** A loop [for x in l] over a state, left by the first exception. *)
Fixpoint fold_raising {A B} (f : A → B → outcome A) (a : A) (l : list B) : outcome A :=
  match l with
  | [] => Returns a
  | x :: r =>
      match f a x with
      | Returns a' => fold_raising f a' r
      | Raises e => Raises e
      end
  end.

(** [sys.get_int_max_str_digits()] *)
Definition INT_MAX_STR_DIGITS : nat := 4300.

(** [int(ds)] for a run of decimal digits [ds]. *)
Definition int_of_text (ds : string) : outcome Z :=
  if (INT_MAX_STR_DIGITS <? String.length ds)%nat then
    Raises (OtherError
      ("Exceeds the limit (4300 digits) for integer string conversion: value has "
       +:+ str_of_int (Z.of_nat (String.length ds))
       +:+ " digits; use sys.set_int_max_str_digits() to increase the limit"))
  else Returns (int_of_digits ds).

(** ** CSV parsing: one row of [parse_csv_file] *)

Module Csv.

(** [re.search(r"RANK\s+(\d+)", item, re.IGNORECASE)] tried at the start
    of [s]: the digits of group 1 when the pattern matches there. *)
Definition match_rank_here (s : string) : option string :=
  match s with
  | String c1 (String c2 (String c3 (String c4 rest))) =>
      if bool_decide (lower_char c1 = "r"%char ∧ lower_char c2 = "a"%char ∧
                      lower_char c3 = "n"%char ∧ lower_char c4 = "k"%char)
      then
        let '(ws, after_ws) := span isspace rest in
        let '(ds, _) := span isdigit after_ws in
        if truthy ws && truthy ds then Some ds else None
      else None
  | _ => None
  end.

(** The leftmost match in [s]. *)
Fixpoint search_rank (s : string) : option string :=
  match match_rank_here s with
  | Some ds => Some ds
  | None =>
      match s with
      | EmptyString => None
      | String _ r => search_rank r
      end
  end.

(** [re.fullmatch(r"[a-fA-F0-9]{64}", item)] *)
Definition is_hex64 (item : string) : bool :=
  (String.length item =? 64)%nat && forallb ishex (list_ascii_of_string item).

Definition scan_item (st : list string * Z * string) (item : string)
  : outcome (list string * Z * string) :=
  let '(kws, rank, h) := st in
  match search_rank item with
  | Some ds =>
      match int_of_text ds with
      | Returns n => Returns (kws, n, h)
      | Raises e => Raises e
      end
  | None =>
      if is_hex64 item then Returns (kws, rank, lower item)
      else Returns (kws ++ [item], rank, h)
  end.

End Csv.

Import Csv.

(** ** JSON values and the outside world *)

(** What [json.loads] returns.  A [float] keeps its literal; a [dict] is
    the list of its items, whose keys are distinct. *)
Inductive json :=
| JNone
| JBool (b : bool)
| JInt (n : Z)
| JFloat (literal : string)
| JStr (s : string)
| JList (items : list json)
| JDict (items : list (string * json)).

(** [type(v).__name__] *)
Definition type_name (v : json) : string :=
  match v with
  | JNone => "NoneType"
  | JBool _ => "bool"
  | JInt _ => "int"
  | JFloat _ => "float"
  | JStr _ => "str"
  | JList _ => "list"
  | JDict _ => "dict"
  end.

Definition AttributeError (v : json) (attr : string) : exn :=
  OtherError ("'" +:+ type_name v +:+ "' object has no attribute '" +:+ attr +:+ "'").

Record World := {
  path_exists : string → bool;
  path_is_file : string → bool;
  path_is_dir : string → bool;
  path_resolve : string → string;
  path_suffix : string → string;
  path_parent : string → string;
  path_join : string → string → string;
  path_cwd : string;
  (** [Path().glob(pattern)], which raises on a pattern that is not
      relative, and [path.rglob("*")] *)
  path_glob : string → outcome (list string);
  path_rglob_all : string → list string;
  (** [hashlib.sha256(text.encode()).hexdigest()] *)
  sha256_hexdigest : string → string;
  (** the rows [csv.reader] yields from a file, and the exception that
      ended the reading if there was one *)
  csv_reader : string → list (list string) * option exn;
  (** [base64.b64encode(f.read()).decode("ascii")] on the opened file *)
  read_b64 : string → outcome string;
  do_request : string → json → Z → outcome (Z * list (string * string) * string);
  (** [json.loads(resp_bytes.decode("utf-8", "replace"))] *)
  json_loads : string → outcome json;
  file_sha256_hex : string → outcome string;
  pretty_json_try : string → string;
  (** what [traceback.print_exc()] prints *)
  traceback_text : exn → string;
  PIL_AVAILABLE : bool;
  (** [tk.Tk()], which raises when no display can be opened *)
  tk_start : outcome unit
}.

(** Standard output as the rows given to [csv.writer], standard error as
    the lines printed, and the viewer if the GUI was started. *)
Record Output := {
  stdout_rows : list (list string);
  stderr_lines : list string;
  launched : option ImageViewer
}.

Definition no_output : Output :=
  {| stdout_rows := []; stderr_lines := []; launched := None |}.

(** ** A small monad: output so far, and a result or an exception *)

Module IO.

Definition io (A : Type) : Type := Output → outcome A * Output.

Definition ret {A} (a : A) : io A := λ o, (Returns a, o).

Definition bind {A B} (m : io A) (k : A → io B) : io B :=
  λ o, match m o with
       | (Returns a, o') => k a o'
       | (Raises e, o') => (Raises e, o')
       end.

Definition lift {A} (r : outcome A) : io A := λ o, (r, o).

(** [try: m  except Exception as e: h e] *)
Definition catch {A} (m : io A) (h : exn → io A) : io A :=
  λ o, match m o with
       | (Raises e, o') => h e o'
       | r => r
       end.

(** [print(line, file=sys.stderr)] *)
Definition eprint (line : string) : io unit :=
  λ o, (Returns tt,
        {| stdout_rows := stdout_rows o;
           stderr_lines := stderr_lines o ++ [line];
           launched := launched o |}).

(** [csv_writer.writerow(row)] *)
Definition writerow (row : list string) : io unit :=
  λ o, (Returns tt,
        {| stdout_rows := stdout_rows o ++ [row];
           stderr_lines := stderr_lines o;
           launched := launched o |}).


Definition when (b : bool) (m : io unit) : io unit :=
  if b then m else ret tt.

(** [for x in xs: body x] *)
Fixpoint for_each {A} (xs : list A) (body : A → io unit) : io unit :=
  match xs with
  | [] => ret tt
  | x :: r => bind (body x) (λ _, for_each r body)
  end.

End IO.

Import IO.

#[global] Instance io_ret : MRet io := @ret.
#[global] Instance io_bind : MBind io := λ A B k m, bind m k.

(** ** Configuration *)

Definition MODEL_NAME : string := "gemma3:12b".

Definition PROMPT_TEMPLATE : string :=
  "Provide just a comma-separated list of keywords that someone searching for this image,"
  +:+ " or one with a similar visual or emotional tone, might use to find it, including dominant colors and themes, with no comments."
  +:+ " As a single keyword, one time, display the word RANK and how good the image is, on a scale from 1 to 10, such as 'RANK 4'."
  +:+ " As the final keyword, specify the high-level type of the image, such as photo, drawing, receipt or whatever it is.".

(** [urljoin(OLLAMA_BASE, CHAT_ENDPOINT.lstrip("/"))] *)
Definition chat_url : string := "http://localhost:11434/api/chat".

Definition DEFAULT_TIMEOUT : Z := 15.


Definition nl : string := String (ascii_of_nat 10) EmptyString.

(** ** Helpers of the extraction mode *)

(** [d.get(k)] *)
Fixpoint dict_get (d : list (string * json)) (k : string) : option json :=
  match d with
  | [] => None
  | (k', v) :: r => if String.eqb k' k then Some v else dict_get r k
  end.

(** [d.get(k)] when [isinstance(d.get(k), str)] *)
Definition str_at (d : list (string * json)) (k : string) : option string :=
  match dict_get d k with
  | Some (JStr s) => Some s
  | _ => None
  end.

(** [m = d.get(k)] followed by
    [isinstance(m, dict) and isinstance(m.get("content"), str)] *)
Definition content_under (d : list (string * json)) (k : string) : option string :=
  match dict_get d k with
  | Some (JDict m) => str_at m "content"
  | _ => None
  end.

(** The closing [for k in ("text", "output", "content")] loop. *)
Definition fallback_keys (d : list (string * json)) : option string :=
  match str_at d "text" with
  | Some s => Some s
  | None =>
      match str_at d "output" with
      | Some s => Some s
      | None => str_at d "content"
      end
  end.

Definition extract_text_from_response (resp_json : json) : outcome (option string) :=
  match resp_json with
  | JDict d =>
      match str_at d "response" with
      | Some s => Returns (Some s)
      | None =>
          match content_under d "message" with
          | Some s => Returns (Some s)
          | None =>
              match dict_get d "choices" with
              | Some (JList (first :: _)) =>
                  match first with
                  | JDict f =>
                      match content_under f "message" with
                      | Some s => Returns (Some s)
                      | None =>
                          match str_at f "content" with
                          | Some s => Returns (Some s)
                          | None => Returns (fallback_keys d)
                          end
                      end
                  | _ =>
                      (* [msg] is [False]; [first.get] then fails *)
                      Raises (AttributeError first "get")
                  end
              | _ => Returns (fallback_keys d)
              end
          end
      end
  | _ => Returns None
  end.

Definition build_chat_payload (model prompt image_b64 : string) : json :=
  JDict [("model", JStr model);
         ("messages", JList [JDict [("role", JStr "user");
                                    ("content", JStr prompt);
                                    ("images", JList [JStr image_b64])]]);
         ("stream", JBool false)].





(** ** [parse_csv_file] *)

Definition locate_file (w : World) (csv_path filename : string) : option string :=
  (λ found, path_resolve w found.2) <$>
    list_find (λ p, path_exists w p = true)
      [filename; path_join w (path_parent w csv_path) filename;
       path_join w (path_cwd w) filename].

(** The body of the loop over rows: [Returns None] is the [continue]; it
    raises when [int] does. *)
Definition parse_row (w : World) (csv_path : string) (row : list string)
  : outcome (option ImageData) :=
  if (length row <? 2)%nat then Returns None
  else
    match row with
    | [] => Returns None
    | filename :: rest =>
        match fold_raising scan_item ([], 1%Z, "") (stripped_nonempty rest) with
        | Returns (kws, rank, h) =>
            let h := if truthy h then h else sha256_hexdigest w filename in
            Returns (Some {| filename := filename; keywords := kws; rank := rank;
                             hash_code := h;
                             full_path := locate_file w csv_path filename |})
        | Raises e => Raises e
        end
    end.

(** The loop over the rows from [out]: the records when it ends, and the
    exception that ended it if a row raised. *)
Fixpoint rows_loop (w : World) (csv_path : string) (out : list ImageData)
    (rows : list (list string)) : list ImageData * option exn :=
  match rows with
  | [] => (out, None)
  | row :: rest =>
      match parse_row w csv_path row with
      | Returns (Some d) => rows_loop w csv_path (out ++ [d]) rest
      | Returns None => rows_loop w csv_path out rest
      | Raises e => (out, Some e)
      end
  end.

Definition parse_rows (w : World) (csv_path : string) (rows : list (list string))
  : list ImageData * option exn :=
  rows_loop w csv_path [] rows.

(** The [except] clause takes the exception of a row as it takes the one
    of the reader; [out] is returned as it stands. *)
Definition parse_csv_file (w : World) (csv_path : string) : io (list ImageData) :=
  let '(rows, failure) := csv_reader w csv_path in
  let '(out, raised) := parse_rows w csv_path rows in
  match raised, failure with
  | Some e, _ | None, Some e =>
      eprint ("Error parsing CSV file " +:+ csv_path +:+ ": " +:+ exn_str e);;
      mret out
  | None, None => mret out
  end.

(** ** [run_for_file] *)

Record Args := {
  paths : list string;
  debug : bool;
  timeout : Z
}.

(** The three [except] clauses after the request. *)
Definition handle_failure (w : World) (args : Args) (full_path : string) (e : exn)
  : io unit :=
  match e with
  | HTTPError code reason err_body =>
      when (debug args)
        (eprint ("HTTP Error " +:+ str_of_int code +:+ " " +:+ reason);;
         eprint ("Error body:" +:+ nl +:+ " " +:+ pretty_json_try w err_body);;
         eprint (traceback_text w e));;
      writerow [full_path; "HTTP Error " +:+ str_of_int code]
  | URLError reason =>
      when (debug args) (eprint (traceback_text w e));;
      writerow [full_path; "Connection Error: " +:+ reason]
  | OtherError message =>
      when (debug args) (eprint (traceback_text w e));;
      writerow [full_path; "Error: " +:+ message]
  end.

(** The body of the second [try]. *)
Definition request_and_write (w : World) (args : Args) (path full_path : string)
    (payload : json) : io unit :=
  '(status, headers, resp_bytes) ← lift (do_request w chat_url payload (timeout args));
  when (debug args)
    (eprint (nl +:+ "HTTP Status: " +:+ str_of_int status);;
     for_each headers (λ kv, eprint (kv.1 +:+ ": " +:+ kv.2));;
     eprint ("Response body snippet:" +:+ nl +:+ " "
             +:+ substring 0 2000 (pretty_json_try w resp_bytes)));;
  resp_json ← lift (json_loads w resp_bytes);
  extracted ← lift (extract_text_from_response resp_json);
  match extracted with
  | Some text =>
      if truthy text then
        sha ← lift (file_sha256_hex w path);
        writerow (full_path :: process_keywords text sha)
      else writerow [full_path; "[No text extracted]"]
  | None => writerow [full_path; "[No text extracted]"]
  end.

(** The first [try]: [None] is the [return] of its [except] clause. *)
Definition read_image (w : World) (path full_path : string) : io (option string) :=
  catch (image_b64 ← lift (read_b64 w path); mret (Some image_b64))
        (λ e, eprint (full_path +:+ ": Failed to read or encode image: " +:+ exn_str e);;
              mret None).

Definition run_for_file (w : World) (path : string) (args : Args) : io unit :=
  let full_path := path_resolve w path in
  read ← read_image w path full_path;
  match read with
  | None => mret tt
  | Some image_b64 =>
      let payload := build_chat_payload MODEL_NAME PROMPT_TEMPLATE image_b64 in
      when (debug args)
        (eprint (nl +:+ "--- Processing " +:+ full_path +:+ " ---");;
         eprint ("Request URL: " +:+ chat_url));;
      catch (request_and_write w args path full_path payload)
            (handle_failure w args full_path)
  end.

(** ** [main] *)

(** [s.endswith(suffix)] *)
Definition endswith (s suffix : string) : bool :=
  (String.length suffix <=? String.length s)%nat &&
  String.eqb (substring (String.length s - String.length suffix)
                        (String.length suffix) s) suffix.

Definition classify_step (w : World) (st : list string * list string) (s : string)
  : outcome (list string * list string) :=
  let '(txt_files, other) := st in
  if endswith s "*.txt" then
    match path_glob w s with
    | Returns found => Returns (txt_files ++ found, other)
    | Raises e => Raises e
    end
  else if bool_decide (lower (path_suffix w s) = ".txt") && path_exists w s
       then Returns (txt_files ++ [s], other)
       else Returns (txt_files, other ++ [s]).


(** Truth value of a list: non-empty. *)
Definition nonempty {A} (l : list A) : bool :=
  match l with [] => false | _ => true end.





(** ** Notions used to state the properties *)

(** The loop shape shared by [process_keywords] and [_apply_filters]: keep
    an element when its key is new, count it otherwise. *)
Definition keep_step {A : Type} (key : A → string)
    (st : list A * gset string * nat) (x : A) : list A * gset string * nat :=
  let '(kept, seen, dups) := st in
  if decide (key x ∈ seen) then (kept, seen, S dups)
  else (kept ++ [x], {[key x]} ∪ seen, dups).

(** What the loop has established once it has gone through [l]. *)
Record keep_inv {A : Type} (key : A → string) (l : list A)
    (st : list A * gset string * nat) : Prop := {
  ki_seen : st.1.2 = list_to_set (key <$> l);
  ki_seen_kept : st.1.2 = list_to_set (key <$> st.1.1);
  ki_nodup : NoDup (key <$> st.1.1);
  ki_sub : st.1.1 `sublist_of` l;
  ki_first : ∀ h, filter (λ x, key x = h) st.1.1 = take 1 (filter (λ x, key x = h) l);
  ki_origin : ∀ x, x ∈ st.1.1 → ∃ pre post, l = pre ++ x :: post ∧ key x ∉ key <$> pre;
  ki_count : length st.1.1 + st.2 = length l
}.

(** A record passes the filters of a viewer. *)
Definition passes (self : ImageViewer) (img : ImageData) : bool :=
  matches_keywords img (filter_kws_of (keyword_entry self)) (partial_match self)
  && matches_rank img (rank_var self).

(** The records of a viewer that pass its filters, in their order. *)
Definition passing (self : ImageViewer) : list ImageData :=
  filter (λ img, passes self img = true) (all_images self).

(** The text written in place of keywords for an exception caught after
    the image was read. *)
Definition diagnostic (e : exn) : string :=
  match e with
  | HTTPError code _ _ => "HTTP Error " +:+ str_of_int code
  | URLError reason => "Connection Error: " +:+ reason
  | OtherError message => "Error: " +:+ message
  end.

(** A file whose image was read fails with [e]: in the request, in decoding
    the response, in extracting the text, or in hashing the file. *)
Inductive fails_after_read (w : World) (args : Args) (path : string) : exn → Prop :=
| fails_in_request image_b64 e :
    read_b64 w path = Returns image_b64 →
    do_request w chat_url (build_chat_payload MODEL_NAME PROMPT_TEMPLATE image_b64)
               (timeout args) = Raises e →
    fails_after_read w args path e
| fails_in_json image_b64 status headers resp_bytes e :
    read_b64 w path = Returns image_b64 →
    do_request w chat_url (build_chat_payload MODEL_NAME PROMPT_TEMPLATE image_b64)
               (timeout args) = Returns (status, headers, resp_bytes) →
    json_loads w resp_bytes = Raises e →
    fails_after_read w args path e
| fails_in_extract image_b64 status headers resp_bytes resp_json e :
    read_b64 w path = Returns image_b64 →
    do_request w chat_url (build_chat_payload MODEL_NAME PROMPT_TEMPLATE image_b64)
               (timeout args) = Returns (status, headers, resp_bytes) →
    json_loads w resp_bytes = Returns resp_json →
    extract_text_from_response resp_json = Raises e →
    fails_after_read w args path e
| fails_in_hash image_b64 status headers resp_bytes resp_json text e :
    read_b64 w path = Returns image_b64 →
    do_request w chat_url (build_chat_payload MODEL_NAME PROMPT_TEMPLATE image_b64)
               (timeout args) = Returns (status, headers, resp_bytes) →
    json_loads w resp_bytes = Returns resp_json →
    extract_text_from_response resp_json = Returns (Some text) →
    truthy text = true →
    file_sha256_hex w path = Raises e →
    fails_after_read w args path e.

(** What [run_for_file] writes after the path when the image was read. *)
Definition row_tail (w : World) (args : Args) (path image_b64 : string) : list string :=
  match do_request w chat_url (build_chat_payload MODEL_NAME PROMPT_TEMPLATE image_b64)
                   (timeout args) with
  | Raises e => [diagnostic e]
  | Returns (_, _, resp_bytes) =>
      match json_loads w resp_bytes with
      | Raises e => [diagnostic e]
      | Returns resp_json =>
          match extract_text_from_response resp_json with
          | Raises e => [diagnostic e]
          | Returns None => ["[No text extracted]"]
          | Returns (Some text) =>
              if truthy text then
                match file_sha256_hex w path with
                | Raises e => [diagnostic e]
                | Returns sha => process_keywords text sha
                end
              else ["[No text extracted]"]
          end
      end
  end.

(** The rows [run_for_file] writes for a file: none or one. *)
Definition file_rows (w : World) (args : Args) (path : string) : list (list string) :=
  match read_b64 w path with
  | Raises _ => []
  | Returns image_b64 => [path_resolve w path :: row_tail w args path image_b64]
  end.

(** The files [main] hands to [parse_csv_file] and the other arguments,
    when sorting the arguments raises nothing. *)
Definition classified (w : World) (args : Args) : outcome (list string * list string) :=
  fold_raising (classify_step w) ([], []) (paths args).

(** [main] takes the branch of the viewer. *)
Definition viewer_mode (w : World) (args : Args) : bool :=
  match classified w args with
  | Returns (txt_files, other) => nonempty txt_files && negb (nonempty other)
  | Raises _ => false
  end.


(** A field of a row after stripping, as [parse_csv_file] looks at it. *)
Definition has_rank_token (item : string) : bool :=
  bool_decide (is_Some (search_rank item)).

Definition row_items (row : list string) : list string :=
  stripped_nonempty (tail row).

(** A field that is neither a rank token nor a hash token. *)
Definition is_keyword (item : string) : bool :=
  negb (has_rank_token item) && negb (is_hex64 item).

(** The digits of the rank token of the field, if it has one, are at most
    4300: [int] takes them. *)
Definition rank_digits_fit (item : string) : bool :=
  match search_rank item with
  | Some ds => (String.length ds <=? INT_MAX_STR_DIGITS)%nat
  | None => true
  end.

(** No field of the row holds a rank token of more than 4300 digits. *)
Definition row_fits (row : list string) : bool :=
  forallb rank_digits_fit (row_items row).



(** ** Sample data *)

Definition sample_images : list ImageData :=
  [ {| filename := "a.jpg"; keywords := ["cat"]; rank := 3;
       hash_code := "h1"; full_path := None |};
    {| filename := "b.jpg"; keywords := ["dog"]; rank := 7;
       hash_code := "h2"; full_path := None |} ].

Definition sample_hash : string :=
  "abc123abc123abc123abc123abc123abc123abc123abc123abc123abc123abcd".

Definition other_hash : string :=
  "0f0f0f0f0f0f0f0f0f0f0f0f0f0f0f0f0f0f0f0f0f0f0f0f0f0f0f0f0f0f0f0f".

(** A run of [n] digits 9. *)
Fixpoint nines (n : nat) : string :=
  match n with
  | O => EmptyString
  | S m => String "9" (nines m)
  end.

(** A field with a rank token of 4301 digits. *)
Definition long_rank : string := "RANK " +:+ nines 4301.

(** A machine with one CSV file [data.txt] of two records, a file
    [cut.txt] whose reading breaks off after two rows, a file [long.txt]
    whose second row holds [long_rank], no image files, an endpoint that
    refuses connections, and [pillow] as given. *)
Definition sample_world (pillow : bool) : World :=
  {| path_exists := λ p, String.eqb p "data.txt";
     path_is_file := λ p, String.eqb p "data.txt";
     path_is_dir := λ _, false;
     path_resolve := λ p, "/home/u/" +:+ p;
     path_suffix := λ p, if String.eqb p "data.txt" then ".txt" else ".jpg";
     path_parent := λ _, ".";
     path_join := λ a b, a +:+ "/" +:+ b;
     path_cwd := "/home/u";
     path_glob := λ pattern,
       if String.prefix "/" pattern
       then Raises (OtherError "Non-relative patterns are unsupported")
       else Returns [];
     path_rglob_all := λ _, [];
     sha256_hexdigest := λ _, other_hash;
     csv_reader := λ p,
       if String.eqb p "data.txt"
       then ([["photo1.jpg"; "cat"; "Cat"; "RANK 7"; "dog"; sample_hash];
              ["stray"]; []; ["b.jpg"; "dog"]], None)
       else if String.eqb p "cut.txt"
       then ([["c.jpg"; "sea"; "RANK 5"]; ["d.jpg"; "sand"]],
             Some (OtherError "field larger than field limit (131072)"))
       else if String.eqb p "long.txt"
       then ([["e.jpg"; "hill"]; ["f.jpg"; "lake"; long_rank]; ["g.jpg"; "moor"]], None)
       else ([], Some (OtherError
               ("[Errno 2] No such file or directory: '" +:+ p +:+ "'")));
     read_b64 := λ p,
       if String.eqb p "gone.jpg"
       then Raises (OtherError "[Errno 2] No such file or directory: 'gone.jpg'")
       else Returns "QUJD";
     do_request := λ _ _ _, Raises (URLError "[Errno 111] Connection refused");
     json_loads := λ _, Raises (OtherError "Expecting value: line 1 column 1 (char 0)");
     file_sha256_hex := λ _, Returns sample_hash;
     pretty_json_try := λ body, body;
     traceback_text := λ _, "Traceback (most recent call last):";
     PIL_AVAILABLE := pillow;
     tk_start := Returns tt |}.

(** The same machine with an endpoint that answers every request with
    [resp_json]. *)
Definition answering_world (resp_json : json) : World :=
  let w := sample_world true in
  {| path_exists := path_exists w; path_is_file := path_is_file w;
     path_is_dir := path_is_dir w; path_resolve := path_resolve w;
     path_suffix := path_suffix w; path_parent := path_parent w;
     path_join := path_join w; path_cwd := path_cwd w;
     path_glob := path_glob w; path_rglob_all := path_rglob_all w;
     sha256_hexdigest := sha256_hexdigest w; csv_reader := csv_reader w;
     read_b64 := read_b64 w;
     do_request := λ _ _ _, Returns (200%Z, [("Content-Type", "application/json")], "{}");
     json_loads := λ _, Returns resp_json;
     file_sha256_hex := file_sha256_hex w;
     pretty_json_try := pretty_json_try w;
     traceback_text := traceback_text w;
     PIL_AVAILABLE := true;
     tk_start := tk_start w |}.

Definition sample_args (ps : list string) : Args :=
  {| paths := ps; debug := false; timeout := DEFAULT_TIMEOUT |}.



(** The characters of a text. *)
Definition chars (s : string) : list ascii := list_ascii_of_string s.

(** ** The viewer: navigation and the callbacks of the widgets *)

Definition with_index (self : ImageViewer) (i : nat) : ImageViewer :=
  {| all_images := all_images self;
     filtered_images := filtered_images self;
     current_index := i;
     duplicates_count := duplicates_count self;
     keyword_entry := keyword_entry self;
     rank_var := rank_var self;
     partial_match := partial_match self |}.

(** The three filter widgets set to the given values. *)
Definition with_widgets (self : ImageViewer) (entry : string) (min_rank : Z)
    (partial : bool) : ImageViewer :=
  {| all_images := all_images self;
     filtered_images := filtered_images self;
     current_index := current_index self;
     duplicates_count := duplicates_count self;
     keyword_entry := entry;
     rank_var := min_rank;
     partial_match := partial |}.

Definition _on_filter_change (self : ImageViewer) : ImageViewer :=
  _apply_filters self.

Definition _clear_filters (self : ImageViewer) : ImageViewer :=
  _on_filter_change (with_widgets self "" 1 false).

Definition _goto_index (self : ImageViewer) (i : Z) : ImageViewer :=
  if ((0 <=? i) && (i <? Z.of_nat (length (filtered_images self))))%Z
  then with_index self (Z.to_nat i)
  else self.

Definition _prev_image (self : ImageViewer) : ImageViewer :=
  if (Z.of_nat (current_index self) >? 0)%Z
  then with_index self (current_index self - 1)
  else self.

Definition _next_image (self : ImageViewer) : ImageViewer :=
  if (Z.of_nat (current_index self) <? Z.of_nat (length (filtered_images self)) - 1)%Z
  then with_index self (current_index self + 1)
  else self.

(** What the user can do to the viewer: a key release in the keyword
    entry leaving it with a text, the rank scale moved to a value, the
    partial-match box clicked, the Clear button, the keys and buttons for
    the previous and the next image, and a click on thumbnail [i]. *)
Inductive event :=
| KeyRelease (text : string)
| RankScale (value : Z)
| PartialClick
| ClearButton
| PrevKey
| NextKey
| ThumbClick (i : Z).

Definition on_event (self : ImageViewer) (ev : event) : ImageViewer :=
  match ev with
  | KeyRelease text =>
      _on_filter_change (with_widgets self text (rank_var self) (partial_match self))
  | RankScale value =>
      _on_filter_change (with_widgets self (keyword_entry self) value (partial_match self))
  | PartialClick =>
      _on_filter_change
        (with_widgets self (keyword_entry self) (rank_var self) (negb (partial_match self)))
  | ClearButton => _clear_filters self
  | PrevKey => _prev_image self
  | NextKey => _next_image self
  | ThumbClick i => _goto_index self i
  end.

(** [ImageViewer(master, image_data_list)] *)
Definition new_viewer (image_data_list : list ImageData) : ImageViewer :=
  viewer_with image_data_list "" 1 false.

(** The state [_display_current_image] gives the Previous and the Next
    button: [true] is [tk.NORMAL]. *)
Definition nav_buttons (self : ImageViewer) : bool * bool :=
  if nonempty (filtered_images self)
  then ((Z.of_nat (current_index self) >? 0)%Z,
        (Z.of_nat (current_index self)
         <? Z.of_nat (length (filtered_images self)) - 1)%Z)
  else (false, false).

(** The index points into the filtered list, or is 0 when the list is
    empty. *)
Definition index_in_range (self : ImageViewer) : Prop :=
  (current_index self < length (filtered_images self))%nat
  ∨ (filtered_images self = [] ∧ current_index self = 0%nat).

(** The filtered list and the counter are those of the filter widgets as
    they stand. *)
Definition in_sync (self : ImageViewer) : Prop :=
  filtered_images self = filtered_images (_apply_filters self)
  ∧ duplicates_count self = duplicates_count (_apply_filters self).

Definition _resolve_image_path (w : World) (img_data : ImageData) : option string :=
  let from_candidates :=
    snd <$> list_find (λ candidate, path_exists w candidate = true)
              [filename img_data; path_join w (path_cwd w) (filename img_data)] in
  match full_path img_data with
  | Some fp => if truthy fp && path_exists w fp then Some fp else from_candidates
  | None => from_candidates
  end.

(** ** The viewer: the thumbnail cache

    An image handed to Tk is a value of [image].  Of Pillow and Tk the
    cache needs the result of the body of the [try] of [_get_thumbnail]
    (open, resize, convert, wrap) and the blank image made when it
    fails. *)

Section Thumbnails.
Context {image : Type}.

Record Imaging := {
  load_thumbnail : string → Z → outcome image;
  blank_thumbnail : Z → image
}.

Definition _get_thumbnail (g : Imaging) (thumb_cache : gmap (string * Z) image)
    (path : string) (max_h : Z) : image * gmap (string * Z) image :=
  let key := (path, max_h) in
  match thumb_cache !! key with
  | Some cached => (cached, thumb_cache)
  | None =>
      match load_thumbnail g path max_h with
      | Returns tkimg => (tkimg, <[key := tkimg]> thumb_cache)
      | Raises _ =>
          let ph := blank_thumbnail g max_h in
          (ph, <[key := ph]> thumb_cache)
      end
  end.

(** A tile of the strip: its picture, or none for the text [No preview],
    and its caption. *)
Record Tile := {
  tile_image : option image;
  tile_caption : string
}.

Definition render_tile (w : World) (g : Imaging)
    (st : list Tile * gmap (string * Z) image) (img_data : ImageData)
  : list Tile * gmap (string * Z) image :=
  let '(thumb_widgets, thumb_cache) := st in
  let caption := "R " +:+ str_of_int (rank img_data) in
  match _resolve_image_path w img_data with
  | Some p =>
      if PIL_AVAILABLE w then
        let '(thumb, thumb_cache') := _get_thumbnail g thumb_cache p 84 in
        (thumb_widgets ++ [{| tile_image := Some thumb; tile_caption := caption |}],
         thumb_cache')
      else
        (thumb_widgets ++ [{| tile_image := None; tile_caption := caption |}], thumb_cache)
  | None =>
      (thumb_widgets ++ [{| tile_image := None; tile_caption := caption |}], thumb_cache)
  end.

(** The old tiles are destroyed; the new ones are made from the filtered
    list, through the cache. *)
Definition _render_thumbnails (w : World) (g : Imaging) (self : ImageViewer)
    (thumb_cache : gmap (string * Z) image)
  : list Tile * gmap (string * Z) image :=
  foldl (render_tile w g) ([], thumb_cache) (filtered_images self).

End Thumbnails.

Arguments Imaging : clear implicits.
Arguments Tile : clear implicits.

(** ** Extraction mode: notions for the batch *)

(** The image of a file can be read and encoded. *)
Definition readable (w : World) (path : string) : bool :=
  match read_b64 w path with
  | Returns _ => true
  | Raises _ => false
  end.


(** * Properties *)

(** ** Text *)

Section TextFacts.

Lemma split_nonempty sep s : split sep s ≠ [].
Proof.
destruct s as [|c r]; simpl; [done|].
destruct (Ascii.eqb c sep); [done|]. by destruct (split sep r).
Qed.

Lemma split_app_sep sep a b :
split sep (a +:+ String sep b) = split sep a ++ split sep b.
Proof.
induction a as [|c a IH]; simpl.
- by rewrite Ascii.eqb_refl.
- destruct (Ascii.eqb c sep); [by rewrite IH|].
  rewrite IH. pose proof (split_nonempty sep a) as Hne.
  by destruct (split sep a).
Qed.

Lemma stripped_nonempty_app l1 l2 :
stripped_nonempty (l1 ++ l2) = stripped_nonempty l1 ++ stripped_nonempty l2.
Proof. unfold stripped_nonempty. by rewrite filter_app, fmap_app. Qed.

Lemma stripped_nonempty_cons x l :
stripped_nonempty (x :: l) =
(if truthy (strip x) then [strip x] else []) ++ stripped_nonempty l.
Proof.
unfold stripped_nonempty. rewrite filter_cons.
destruct (truthy (strip x)) eqn:E; case_decide; naive_solver.
Qed.

Lemma stripped_nonempty_Forall2 l l' :
Forall2 (λ p q, strip p = strip q) l l' →
stripped_nonempty l = stripped_nonempty l'.
Proof.
induction 1 as [|p q l l' Hpq _ IH]; [done|].
by rewrite !stripped_nonempty_cons, Hpq, IH.
Qed.

Lemma strip_comm s : rstrip (lstrip s) = lstrip (rstrip s).
Proof.
induction s as [|c r IH]; [done|]. simpl.
destruct (isspace c) eqn:Hc.
- rewrite IH. destruct (rstrip r) eqn:Hr; simpl; [done|]. by rewrite Hc.
- simpl. destruct (rstrip r) eqn:Hr; simpl; by rewrite Hc.
Qed.

Lemma isspace_not_comma c : isspace c = true → Ascii.eqb c "," = false.
Proof.
intros Hc. destruct (Ascii.eqb_spec c ","); [|done]. by subst.
Qed.

Lemma split_lstrip s :
stripped_nonempty (split "," (lstrip s)) = stripped_nonempty (split "," s).
Proof.
induction s as [|c r IH]; [done|]. simpl.
destruct (isspace c) eqn:Hc; [|done].
rewrite (isspace_not_comma _ Hc), IH.
pose proof (split_nonempty "," r). destruct (split "," r) as [|h t]; [done|].
rewrite !stripped_nonempty_cons. unfold strip. simpl. rewrite Hc. done.
Qed.

Lemma rstrip_empty_split s :
rstrip s = EmptyString → split "," s = [s].
Proof.
induction s as [|c r IH]; [done|]. simpl.
destruct (rstrip r) eqn:Hr; [|done].
destruct (isspace c) eqn:Hc; [|done]. intros _.
by rewrite (isspace_not_comma _ Hc), IH.
Qed.

Lemma split_rstrip s :
Forall2 (λ p q, rstrip p = rstrip q) (split "," (rstrip s)) (split "," s).
Proof.
induction s as [|c r IH]; [by repeat constructor|].
simpl. destruct (rstrip r) as [|c' r'] eqn:Hr.
- rewrite (rstrip_empty_split r Hr) in *.
  destruct (isspace c) eqn:Hc.
  + rewrite (isspace_not_comma _ Hc). simpl.
    repeat constructor. simpl. by rewrite Hr, Hc.
  + simpl. destruct (Ascii.eqb c ","); repeat constructor; simpl; try done.
    by rewrite Hr, Hc.
- remember (String c' r') as r2 eqn:Hr2.
  assert (split "," (String c r2) =
          if Ascii.eqb c "," then EmptyString :: split "," r2
          else match split "," r2 with
               | h :: t => String c h :: t
               | [] => [String c EmptyString]
               end) as -> by done.
  destruct (Ascii.eqb c ","); [by constructor|].
  pose proof (split_nonempty "," r2) as Hne.
  inversion IH as [Hnil|p q l l' Hpq Hl Hp Hq]; [by rewrite <- Hnil in Hne|].
  constructor; [|done]. simpl. by rewrite Hpq.
Qed.

Lemma split_strip s :
stripped_nonempty (split "," (strip s)) = stripped_nonempty (split "," s).
Proof.
unfold strip. rewrite <- (split_lstrip s).
apply stripped_nonempty_Forall2.
eapply Forall2_impl; [apply split_rstrip|].
intros p q Hpq. simpl. unfold strip. by rewrite !strip_comm, Hpq.
Qed.

End TextFacts.

Lemma filter_kws_of_split entry :
  filter_kws_of entry = stripped_nonempty (split "," entry).
Proof.
  unfold filter_kws_of. destruct (truthy (strip entry)) eqn:E.
  - apply split_strip.
  - rewrite <- split_strip. by destruct (strip entry).
Qed.

Lemma filter_kws_of_add_term entry term :
  filter_kws_of (entry +:+ "," +:+ term) = filter_kws_of entry ++ filter_kws_of term.
Proof.
  rewrite !filter_kws_of_split.
  change ("," +:+ term) with (String "," term).
  by rewrite split_app_sep, stripped_nonempty_app.
Qed.

(** ** The stable sort *)

Section SortFacts.
Context {A : Type} (key : A → string).

Lemma string_leb_trans (a b c : string) :
  String.leb a b = true → String.leb b c = true → String.leb a c = true.
Proof.
  unfold String.leb. revert b c.
  induction a as [|x a IH]; intros [|y b] [|z c]; simpl; try done.
  unfold Ascii.compare.
  destruct (N.compare_spec (N_of_ascii x) (N_of_ascii y)) as [Hxy|Hxy|Hxy];
    destruct (N.compare_spec (N_of_ascii y) (N_of_ascii z)) as [Hyz|Hyz|Hyz];
    destruct (N.compare_spec (N_of_ascii x) (N_of_ascii z)) as [Hxz|Hxz|Hxz];
    try done; try lia.
  apply IH.
Qed.

Lemma key_le_trans (a b c : A) : key_le key a b → key_le key b c → key_le key a c.
Proof. apply string_leb_trans. Qed.

Lemma key_le_total (a b : A) : key_le key a b ∨ key_le key b a.
Proof. apply String.leb_total. Qed.

Lemma insert_by_key_perm x (l : list A) : insert_by_key key x l ≡ₚ x :: l.
Proof.
  induction l as [|y r IH]; simpl; [done|].
  destruct (String.leb (key x) (key y)); [done|].
  rewrite IH. apply Permutation_swap.
Qed.

Lemma sort_by_key_perm (l : list A) : sort_by_key key l ≡ₚ l.
Proof.
  induction l as [|x l IH]; simpl; [done|].
  by rewrite insert_by_key_perm, IH.
Qed.

Lemma insert_by_key_sorted x (l : list A) :
  StronglySorted (key_le key) l →
  StronglySorted (key_le key) (insert_by_key key x l).
Proof.
  induction 1 as [|y r Hr IH Hy]; simpl.
  - repeat constructor.
  - destruct (String.leb (key x) (key y)) eqn:Hxy.
    + constructor; [by constructor|].
      constructor; [done|].
      eapply Forall_impl; [exact Hy|]. intros z Hz. by eapply key_le_trans.
    + constructor; [done|].
      rewrite insert_by_key_perm. constructor; [|done].
      destruct (key_le_total x y) as [H|H]; [|done].
      unfold key_le in H. congruence.
Qed.

Lemma sort_by_key_sorted (l : list A) : StronglySorted (key_le key) (sort_by_key key l).
Proof.
  induction l as [|x l IH]; simpl; [constructor|].
  by apply insert_by_key_sorted.
Qed.
End SortFacts.

(** ** Keeping first occurrences *)

Section KeepFirst.
Context {A : Type} (key : A → string).
Implicit Types (l kept : list A) (seen : gset string).

Lemma keep_inv_nil : keep_inv key [] ([], ∅, 0).
Proof.
  split; simpl; try done.
  - constructor.
  - intros x Hx. by apply elem_of_nil in Hx.
Qed.

Lemma filter_key_snoc h l x :
  filter (λ y, key y = h) (l ++ [x]) =
  filter (λ y, key y = h) l ++ (if decide (key x = h) then [x] else []).
Proof.
  rewrite filter_app. by f_equal.
Qed.

Lemma keep_inv_step l st x :
  keep_inv key l st → keep_inv key (l ++ [x]) (keep_step key st x).
Proof.
  destruct st as [[kept seen] dups]. intros [Hs Hsk Hnd Hsub Hfirst Horig Hcnt].
  simpl in *. unfold keep_step.
  destruct (decide (key x ∈ seen)) as [Hin|Hnin]; split; simpl.
  - rewrite fmap_app, list_to_set_app_L, <- Hs. simpl. set_solver.
  - done.
  - done.
  - by apply sublist_inserts_r.
  - intros h. rewrite filter_key_snoc, Hfirst.
    destruct (decide (key x = h)) as [<-|]; [|by rewrite app_nil_r].
    rewrite Hsk in Hin. apply elem_of_list_to_set, list_elem_of_fmap in Hin.
    destruct Hin as (y & Hy & Hyk).
    assert (y ∈ filter (λ z, key z = key x) kept) as Hyf
      by (by apply list_elem_of_filter).
    rewrite Hfirst in Hyf.
    destruct (filter (λ z, key z = key x) l) as [|z zs]; [|done].
    by apply elem_of_nil in Hyf.
  - intros y Hy. destruct (Horig y Hy) as (pre & post & -> & Hpre).
    exists pre, (post ++ [x]). by rewrite <- app_assoc.
  - rewrite length_app. simpl. lia.
  - rewrite fmap_app, list_to_set_app_L, <- Hs. simpl. set_solver.
  - rewrite fmap_app, list_to_set_app_L, <- Hsk. simpl. set_solver.
  - rewrite fmap_app. apply NoDup_app. split; [done|]. split.
    + intros k Hk Hk'. apply list_elem_of_singleton in Hk'. subst k.
      apply Hnin. rewrite Hsk. by apply elem_of_list_to_set.
    + apply NoDup_singleton.
  - by apply sublist_app.
  - intros h. rewrite !filter_key_snoc, Hfirst.
    destruct (decide (key x = h)) as [<-|]; [|by rewrite !app_nil_r].
    assert (filter (λ z, key z = key x) l = []) as ->; [|done].
    destruct (filter (λ z, key z = key x) l) as [|z zs] eqn:Hf; [done|].
    assert (z ∈ filter (λ z, key z = key x) l) as Hz
      by (rewrite Hf; apply list_elem_of_here).
    apply list_elem_of_filter in Hz. destruct Hz as [Hzk Hz].
    exfalso. apply Hnin. rewrite Hs.
    apply elem_of_list_to_set, list_elem_of_fmap. by exists z.
  - intros y Hy. apply elem_of_app in Hy. destruct Hy as [Hy|Hy].
    + destruct (Horig y Hy) as (pre & post & -> & Hpre).
      exists pre, (post ++ [x]). by rewrite <- app_assoc.
    + apply list_elem_of_singleton in Hy. subst y.
      exists l, []. split; [done|].
      intros Hk. apply Hnin. rewrite Hs. by apply elem_of_list_to_set.
  - rewrite !length_app. simpl. lia.
Qed.

Lemma keep_inv_foldl l : keep_inv key l (foldl (keep_step key) ([], ∅, 0) l).
Proof.
  induction l as [|x l IH] using rev_ind; [apply keep_inv_nil|].
  rewrite foldl_app. simpl. by apply keep_inv_step.
Qed.

(** The number of elements kept is the number of distinct keys. *)
Lemma keep_inv_length l st :
  keep_inv key l st → length st.1.1 = size (list_to_set (key <$> l) : gset string).
Proof.
  intros [Hs Hsk Hnd _ _ _ _]. rewrite <- Hs, Hsk.
  rewrite size_list_to_set by done. by rewrite length_fmap.
Qed.

Lemma keep_inv_covers l st x :
  keep_inv key l st → x ∈ l → key x ∈ key <$> st.1.1.
Proof.
  intros [Hs Hsk _ _ _ _ _] Hx.
  apply (elem_of_list_to_set (C := gset string)). rewrite <- Hsk, Hs.
  apply elem_of_list_to_set, list_elem_of_fmap. by exists x.
Qed.
End KeepFirst.

(** ** [process_keywords] *)

Lemma dedup_step_keep (l : list string) seen cleaned d :
  foldl dedup_step (seen, cleaned) l =
  let st := foldl (keep_step lower) (cleaned, seen, d) l in (st.1.2, st.1.1).
Proof.
  revert seen cleaned d. induction l as [|kw l IH]; intros seen cleaned d; [done|].
  simpl. destruct (decide (lower kw ∈ seen)); apply IH.
Qed.

Lemma process_keywords_unfold raw_text sha256_hex :
  process_keywords raw_text sha256_hex =
  sort_by_key lower (foldl (keep_step lower) ([], ∅, 0) (keyword_parts raw_text)).1.1
  ++ [sha256_hex].
Proof.
  unfold process_keywords. by rewrite (dedup_step_keep _ _ _ 0).
Qed.

(** Pieces are stripped, empty ones dropped, later spellings of a keyword
    dropped, and the rest sorted without regard to case. *)
Example process_keywords_probe :
  process_keywords "blue, sky, RANK 8, photo, Sky ,,BLUE" "deadbeef"
  = ["blue"; "photo"; "RANK 8"; "sky"; "deadbeef"].
Proof. vm_compute. reflexivity. Qed.

(** C5.  For every raw text and hash, [process_keywords] returns a list
    [body ++ [hash]]: the hash is its last element, [body] is sorted by the
    lowercased keywords and is a rearrangement of [cleaned], where
    [cleaned] is a subsequence of the stripped non-empty pieces of the text
    with pairwise different lowercased forms, contains every piece up to
    case, and keeps of each piece the spelling that occurs first. *)
Theorem process_keywords_dedup_sort_hash (raw_text sha256_hex : string) :
  ∃ cleaned body,
    process_keywords raw_text sha256_hex = body ++ [sha256_hex]
    ∧ last (process_keywords raw_text sha256_hex) = Some sha256_hex
    ∧ cleaned `sublist_of` keyword_parts raw_text
    ∧ NoDup (lower <$> cleaned)
    ∧ (∀ kw, kw ∈ keyword_parts raw_text → lower kw ∈ lower <$> cleaned)
    ∧ (∀ kw, kw ∈ cleaned →
         ∃ pre post, keyword_parts raw_text = pre ++ kw :: post
                     ∧ lower kw ∉ lower <$> pre)
    ∧ body ≡ₚ cleaned
    ∧ StronglySorted (key_le lower) body.
Proof.
  pose proof (keep_inv_foldl lower (keyword_parts raw_text)) as Hinv.
  set (st := foldl (keep_step lower) ([], ∅, 0) (keyword_parts raw_text)) in *.
  exists st.1.1, (sort_by_key lower st.1.1).
  rewrite process_keywords_unfold. fold st.
  split; [done|]. split; [apply last_snoc|].
  split; [apply (ki_sub _ _ _ Hinv)|].
  split; [apply (ki_nodup _ _ _ Hinv)|].
  split; [intros kw; by apply keep_inv_covers|].
  split; [apply (ki_origin _ _ _ Hinv)|].
  split; [apply sort_by_key_perm | apply sort_by_key_sorted].
Qed.

(** C1, as stated, fails: the keyword list [process_keywords] builds from
    the response text of the example still holds the rank token. *)
Lemma rank_token_stays_in_keywords :
  "RANK 8" ∈ process_keywords "blue, sky, RANK 8, photo"
              "deadbeefdeadbeefdeadbeefdeadbeefdeadbeefdeadbeefdeadbeefdeadbeef".
Proof. vm_compute. do 2 apply list_elem_of_further. apply list_elem_of_here. Qed.

(** ** Viewer filtering *)

Lemma filter_step_keep (self : ImageViewer) (l : list ImageData) st :
  foldl (filter_step (filter_kws_of (keyword_entry self)) (rank_var self)
                     (partial_match self)) st l
  = foldl (keep_step hash_code) st (filter (λ img, passes self img = true) l).
Proof.
  revert st. induction l as [|img l IH]; intros st; [done|].
  rewrite filter_cons. simpl. destruct st as [[filtered seen] dups].
  unfold filter_step at 2. fold (passes self img).
  destruct (decide (passes self img = true)) as [Hp|Hp].
  - rewrite Hp. simpl. rewrite IH. unfold keep_step at 2.
    by destruct (decide (hash_code img ∈ seen)).
  - apply not_true_is_false in Hp. rewrite Hp. apply IH.
Qed.

Lemma apply_filters_unfold (self : ImageViewer) :
  let st := foldl (keep_step hash_code) ([], ∅, 0) (passing self) in
  filtered_images (_apply_filters self) = st.1.1
  ∧ duplicates_count (_apply_filters self) = st.2.
Proof.
  unfold _apply_filters. rewrite filter_step_keep. fold (passing self).
  by destruct (foldl (keep_step hash_code) ([], ∅, 0) (passing self)) as [[??]?].
Qed.

(** C7.  For every viewer state, the filtered list is a subsequence of the
    passing records, no hash occurs twice in it, of the passing records
    with a given hash exactly the first is in it, and the passing records
    are the filtered ones plus [duplicates_count] many. *)
Theorem apply_filters_dedup_by_hash (self : ImageViewer) :
  let v := _apply_filters self in
  filtered_images v `sublist_of` passing self
  ∧ NoDup (hash_code <$> filtered_images v)
  ∧ (∀ h, filter (λ img, hash_code img = h) (filtered_images v)
          = take 1 (filter (λ img, hash_code img = h) (passing self)))
  ∧ length (filtered_images v) + duplicates_count v = length (passing self).
Proof.
  destruct (apply_filters_unfold self) as [Hf Hd]. simpl. rewrite Hf, Hd.
  pose proof (keep_inv_foldl hash_code (passing self)) as Hinv.
  split; [apply (ki_sub _ _ _ Hinv)|].
  split; [apply (ki_nodup _ _ _ Hinv)|].
  split; [apply (ki_first _ _ _ Hinv) | apply (ki_count _ _ _ Hinv)].
Qed.

(** The filtered list has one record for each hash among the passing
    records. *)
Lemma filtered_length (self : ImageViewer) :
  length (filtered_images (_apply_filters self))
  = size (list_to_set (hash_code <$> passing self) : gset string).
Proof.
  destruct (apply_filters_unfold self) as [-> _].
  apply keep_inv_length, keep_inv_foldl.
Qed.

Lemma filtered_length_mono (self self' : ImageViewer) :
  all_images self' = all_images self →
  (∀ img, passes self' img = true → passes self img = true) →
  (length (filtered_images (_apply_filters self'))
   ≤ length (filtered_images (_apply_filters self)))%nat.
Proof.
  intros Hall Himp. rewrite !filtered_length. apply subseteq_size.
  intros h. rewrite !elem_of_list_to_set, !list_elem_of_fmap.
  intros (img & -> & Himg). exists img. split; [done|].
  unfold passing in *. rewrite list_elem_of_filter in *. rewrite Hall in Himg.
  naive_solver.
Qed.

Lemma matches_rank_mono img (r1 r2 : Z) :
  (r1 ≤ r2)%Z → matches_rank img r2 = true → matches_rank img r1 = true.
Proof. unfold matches_rank. lia. Qed.

Lemma matches_keywords_more img kws more partial :
  kws ≠ [] →
  matches_keywords img kws partial = true →
  matches_keywords img (kws ++ more) partial = true.
Proof.
  intros Hne. unfold matches_keywords.
  destruct kws as [|k kws]; [done|]. simpl app. cbv beta iota.
  destruct partial; rewrite !existsb_exists; intros (x & Hx & Hm); exists x;
    (split; [|done]); rewrite app_comm_cons; apply in_or_app; by left.
Qed.

Lemma viewer_with_fields images entry r partial :
  let self := {| all_images := images; filtered_images := []; current_index := 0;
                 duplicates_count := 0; keyword_entry := entry; rank_var := r;
                 partial_match := partial |} in
  viewer_with images entry r partial = _apply_filters self.
Proof. done. Qed.

Lemma shown_mono images entry entry' (r r' : Z) partial :
  (∀ img, matches_keywords img (filter_kws_of entry') partial
          && matches_rank img r' = true →
          matches_keywords img (filter_kws_of entry) partial
          && matches_rank img r = true) →
  (length (filtered_images (viewer_with images entry' r' partial))
   ≤ length (filtered_images (viewer_with images entry r partial)))%nat.
Proof.
  intros H. unfold viewer_with. by apply filtered_length_mono.
Qed.

(** C2, as stated, fails: with the records of [sample_images], exact
    matching and minimum rank 1, the filter [cat] shows one record and the
    filter [cat,dog] shows two. *)
Lemma second_term_enlarges_filtered :
  (length (filtered_images (viewer_with sample_images "cat" 1 false))
   < length (filtered_images (viewer_with sample_images "cat,dog" 1 false)))%nat.
Proof. vm_compute. lia. Qed.

(** C2, amended.  For every record list and filter state: raising the
    minimum rank never enlarges the filtered list; adding a term to a
    filter without terms never enlarges it; adding a term to a filter that
    has a term never shrinks it. *)
Theorem filtered_size_monotone (images : list ImageData) (entry term : string)
    (partial : bool) (r1 r2 : Z) :
  let shown e r := length (filtered_images (viewer_with images e r partial)) in
  ((r1 ≤ r2)%Z → (shown entry r2 ≤ shown entry r1)%nat)
  ∧ (filter_kws_of entry = [] →
     (shown (entry +:+ "," +:+ term) r1 ≤ shown entry r1)%nat)
  ∧ (filter_kws_of entry ≠ [] →
     (shown entry r1 ≤ shown (entry +:+ "," +:+ term) r1)%nat).
Proof.
  simpl. split; [|split].
  - intros Hr. apply shown_mono. intros img [Hk Hm]%andb_true_iff.
    rewrite Hk. simpl. by eapply matches_rank_mono.
  - intros Hnil. apply shown_mono. intros img [_ Hm]%andb_true_iff.
    by rewrite Hnil, Hm.
  - intros Hne. apply shown_mono. intros img [Hk Hm]%andb_true_iff.
    rewrite filter_kws_of_add_term, Hm.
    by rewrite matches_keywords_more.
Qed.

(** The three cases of C2 on [sample_images]. *)
Lemma filtered_size_monotone_witness :
  let shown e r := length (filtered_images (viewer_with sample_images e r false)) in
  ((1 ≤ 5)%Z ∧ (shown "cat" 5%Z ≤ shown "cat" 1%Z)%nat)
  ∧ (filter_kws_of " " = [] ∧ (shown (" " +:+ "," +:+ "dog") 1%Z ≤ shown " " 1%Z)%nat)
  ∧ (filter_kws_of "cat" ≠ [] ∧ (shown "cat" 1%Z ≤ shown ("cat" +:+ "," +:+ "dog") 1%Z)%nat).
Proof.
  simpl.
  assert ((1 ≤ 5)%Z) as H1 by lia.
  assert (filter_kws_of " " = []) as H2 by reflexivity.
  assert (filter_kws_of "cat" ≠ []) as H3 by (vm_compute; discriminate).
  split; [|split]; (split; [done|]).
  - exact (proj1 (filtered_size_monotone sample_images "cat" "dog" false 1 5) H1).
  - exact (proj1 (proj2 (filtered_size_monotone sample_images " " "dog" false 1 1)) H2).
  - exact (proj2 (proj2 (filtered_size_monotone sample_images "cat" "dog" false 1 1)) H3).
Defined.

(** ** CSV rows *)

Lemma ishex_facts c :
  ishex c = true → isspace c = false ∧ lower_char c ≠ "r"%char.
Proof.
  destruct c as [[] [] [] [] [] [] [] []]; vm_compute; intros H; try discriminate H;
    split; congruence.
Qed.

Lemma match_rank_here_first c s :
  lower_char c ≠ "r"%char → match_rank_here (String c s) = None.
Proof.
  intros Hc. unfold match_rank_here.
  destruct s as [|c2 [|c3 [|c4 rest]]]; try done.
  rewrite bool_decide_eq_false_2; [done|]. naive_solver.
Qed.

Lemma search_rank_hex (s : string) :
  forallb ishex (list_ascii_of_string s) = true → search_rank s = None.
Proof.
  induction s as [|c s IH]; [done|]. simpl list_ascii_of_string. simpl forallb.
  intros [Hc Hs]%andb_true_iff.
  cbn [search_rank]. rewrite match_rank_here_first by (by apply ishex_facts).
  by apply IH.
Qed.

Lemma is_hex64_no_rank item : is_hex64 item = true → search_rank item = None.
Proof. intros [_ H]%andb_true_iff. by apply search_rank_hex. Qed.

Lemma is_hex64_truthy_lower item : is_hex64 item = true → truthy (lower item) = true.
Proof. intros [Hl _]%andb_true_iff. by destruct item. Qed.

Lemma hex_strip (s : string) :
  forallb ishex (list_ascii_of_string s) = true → strip s = s.
Proof.
  intros H. unfold strip.
  assert (lstrip s = s) as ->.
  { destruct s as [|c s]; [done|]. simpl in *.
    apply andb_true_iff in H as [Hc _]. by rewrite (proj1 (ishex_facts c Hc)). }
  induction s as [|c s IH]; [done|]. simpl in *.
  apply andb_true_iff in H as [Hc Hs]. rewrite (IH Hs).
  destruct s; [|done]. by rewrite (proj1 (ishex_facts c Hc)).
Qed.

Lemma int_of_text_fits (ds : string) :
  (String.length ds ≤ INT_MAX_STR_DIGITS)%nat → int_of_text ds = Returns (int_of_digits ds).
Proof.
  intros H. unfold int_of_text.
  by rewrite (proj2 (Nat.ltb_ge _ _) H).
Qed.

Lemma int_of_text_long (ds : string) :
  (INT_MAX_STR_DIGITS < String.length ds)%nat → ∃ e, int_of_text ds = Raises e.
Proof.
  intros H. unfold int_of_text.
  rewrite (proj2 (Nat.ltb_lt _ _) H). by eexists.
Qed.

Lemma rank_digits_fit_spec (item : string) :
  rank_digits_fit item = true
  ↔ ∀ ds, search_rank item = Some ds → (String.length ds ≤ INT_MAX_STR_DIGITS)%nat.
Proof.
  unfold rank_digits_fit. destruct (search_rank item) as [ds|]; [|done].
  rewrite Nat.leb_le. split; [by intros H ds' [= <-]|]. intros H. by apply H.
Qed.


Lemma scan_items_from (items kws : list string) (rk : Z) (h : string) :
  forallb rank_digits_fit items = true →
  fold_raising scan_item (kws, rk, h) items =
  Returns (kws ++ filter (λ i, is_keyword i = true) items,
           default rk (int_of_digits <$> last (omap search_rank items)),
           default h (lower <$> last (filter (λ i, is_hex64 i = true) items))).
Proof.
  revert kws rk h.
  induction items as [|x items IH]; intros kws rk h Hfit.
  { simpl. by rewrite app_nil_r. }
  cbn [forallb] in Hfit. apply andb_true_iff in Hfit as [Hx Hfit].
  cbn [fold_raising]. unfold scan_item at 1.
  rewrite !filter_cons. cbn [omap list_omap].
  pose proof (proj1 (rank_digits_fit_spec x) Hx) as Hds.
  destruct (search_rank x) as [ds|] eqn:Hs.
  - assert (is_hex64 x = false) as Hhex.
    { destruct (is_hex64 x) eqn:E; [|done]. apply is_hex64_no_rank in E. congruence. }
    assert (is_keyword x = false) as Hkw.
    { unfold is_keyword, has_rank_token. rewrite Hs.
      by rewrite bool_decide_eq_true_2 by eauto. }
    rewrite (int_of_text_fits ds (Hds ds eq_refl)), (IH _ _ _ Hfit).
    destruct (decide (is_keyword x = true)) as [E|_]; [congruence|].
    destruct (decide (is_hex64 x = true)) as [E|_]; [congruence|].
    rewrite last_cons.
    by destruct (last (omap search_rank items)).
  - assert (has_rank_token x = false) as Hrk.
    { unfold has_rank_token. rewrite Hs.
      apply bool_decide_eq_false_2. by intros [? ?]. }
    destruct (is_hex64 x) eqn:Hhex.
    + assert (is_keyword x = false) as Hkw.
      { unfold is_keyword. by rewrite Hrk, Hhex. }
      rewrite (IH _ _ _ Hfit).
      destruct (decide (is_keyword x = true)) as [E|_]; [congruence|].
      destruct (decide (true = true)) as [_|E]; [|done].
      rewrite last_cons.
      by destruct (last (filter (λ i, is_hex64 i = true) items)).
    + assert (is_keyword x = true) as Hkw.
      { unfold is_keyword. by rewrite Hrk, Hhex. }
      rewrite (IH _ _ _ Hfit).
      destruct (decide (is_keyword x = true)) as [_|E]; [|congruence].
      destruct (decide (false = true)) as [E|_]; [done|].
      by rewrite <- app_assoc.
Qed.

Lemma scan_items_spec (items : list string) :
  forallb rank_digits_fit items = true →
  fold_raising scan_item ([], 1%Z, "") items =
  Returns (filter (λ i, is_keyword i = true) items,
           default 1%Z (int_of_digits <$> last (omap search_rank items)),
           default "" (lower <$> last (filter (λ i, is_hex64 i = true) items))).
Proof. intros H. by rewrite (scan_items_from items [] 1 "" H). Qed.

(** The loop over the items is left at the first rank token [int] refuses. *)
Lemma scan_items_raise (items : list string) (st : list string * Z * string) :
  forallb rank_digits_fit items = false →
  ∃ item ds e, item ∈ items ∧ search_rank item = Some ds
               ∧ (INT_MAX_STR_DIGITS < String.length ds)%nat
               ∧ int_of_text ds = Raises e
               ∧ fold_raising scan_item st items = Raises e.
Proof.
  revert st. induction items as [|x items IH]; intros [[kws rk] h] Hfit; [done|].
  cbn [forallb] in Hfit. cbn [fold_raising]. unfold scan_item at 1.
  unfold rank_digits_fit at 1 in Hfit.
  destruct (search_rank x) as [ds|] eqn:Hs.
  - destruct (Nat.leb_spec (String.length ds) INT_MAX_STR_DIGITS) as [Hle|Hlong].
    + rewrite (int_of_text_fits ds Hle).
      destruct (IH (kws, int_of_digits ds, h) Hfit) as (item & ds' & e & Hin & ? & ? & ? & ?).
      exists item, ds', e. split; [by apply list_elem_of_further|done].
    + destruct (int_of_text_long ds Hlong) as [e He].
      exists x, ds, e. rewrite He. split; [apply list_elem_of_here|done].
  - destruct (is_hex64 x).
    + destruct (IH (kws, rk, lower x) Hfit) as (item & ds' & e & Hin & ? & ? & ? & ?).
      exists item, ds', e. split; [by apply list_elem_of_further|done].
    + destruct (IH (kws ++ [x], rk, h) Hfit) as (item & ds' & e & Hin & ? & ? & ? & ?).
      exists item, ds', e. split; [by apply list_elem_of_further|done].
Qed.

Lemma fold_raising_app {A B} (f : A → B → outcome A) (a : A) (l1 l2 : list B) :
  fold_raising f a (l1 ++ l2)
  = match fold_raising f a l1 with
    | Returns a' => fold_raising f a' l2
    | Raises e => Raises e
    end.
Proof.
  revert a. induction l1 as [|x l1 IH]; intros a; [done|].
  simpl. by destruct (f a x).
Qed.

(** What a match of the rank pattern says about the text. *)
Lemma span_spec (p : ascii → bool) (s a b : string) :
  span p s = (a, b) →
  s = a +:+ b ∧ forallb p (list_ascii_of_string a) = true.
Proof.
  revert a b. induction s as [|c s IH]; intros a b; simpl.
  - by intros [= <- <-].
  - destruct (p c) eqn:Hc.
    + destruct (span p s) as [a' b']. intros [= <- <-].
      destruct (IH a' b' eq_refl) as [-> Hall]. simpl. by rewrite Hc.
    + by intros [= <- <-].
Qed.

Lemma match_rank_here_sound (s ds : string) :
  match_rank_here s = Some ds →
  ∃ word ws rest,
    s = word +:+ ws +:+ ds +:+ rest
    ∧ lower word = "rank"
    ∧ truthy ws = true ∧ forallb isspace (list_ascii_of_string ws) = true
    ∧ truthy ds = true ∧ forallb isdigit (list_ascii_of_string ds) = true.
Proof.
  unfold match_rank_here.
  destruct s as [|c1 [|c2 [|c3 [|c4 rest]]]]; try done.
  case_bool_decide as Hword; [|done].
  destruct (span isspace rest) as [ws after_ws] eqn:Hws.
  destruct (span isdigit after_ws) as [ds' tail] eqn:Hds.
  destruct (truthy ws) eqn:Htw; [|done].
  destruct (truthy ds') eqn:Htd; [|done].
  intros [= <-].
  apply span_spec in Hws as [-> Hws]. apply span_spec in Hds as [-> Hds].
  exists (String c1 (String c2 (String c3 (String c4 EmptyString)))), ws, tail.
  destruct Hword as (H1 & H2 & H3 & H4). simpl. by rewrite H1, H2, H3, H4.
Qed.

Lemma search_rank_sound (s ds : string) :
  search_rank s = Some ds →
  ∃ before word ws rest,
    s = before +:+ word +:+ ws +:+ ds +:+ rest
    ∧ lower word = "rank"
    ∧ truthy ws = true ∧ forallb isspace (list_ascii_of_string ws) = true
    ∧ truthy ds = true ∧ forallb isdigit (list_ascii_of_string ds) = true.
Proof.
  induction s as [|c s IH]; cbn [search_rank].
  - done.
  - destruct (match_rank_here (String c s)) as [ds'|] eqn:Hm.
    + intros [= <-]. apply match_rank_here_sound in Hm as (word & ws & rest & H).
      by exists EmptyString, word, ws, rest.
    + intros Hs. destruct (IH Hs) as (before & word & ws & rest & -> & H).
      by exists (String c before), word, ws, rest.
Qed.

Example search_rank_probes :
  search_rank "RANK 7" = Some "7"
  ∧ search_rank "rank   10 of 10" = Some "10"
  ∧ search_rank "prank 12, RANK 3" = Some "12"
  ∧ search_rank "RANK7" = None
  ∧ search_rank "RANK seven" = None
  ∧ search_rank "ranking" = None.
Proof. repeat split. Qed.
Lemma lower_char_class c :
  isspace (lower_char c) = isspace c
  ∧ isdigit (lower_char c) = isdigit c
  ∧ lower_char (lower_char c) = lower_char c.
Proof. by destruct c as [[] [] [] [] [] [] [] []]. Qed.

Lemma truthy_lower s : truthy (lower s) = truthy s.
Proof. by destruct s. Qed.

Lemma span_lower (p : ascii → bool) (s : string) :
  (∀ c, p (lower_char c) = p c) →
  span p (lower s) = (lower (span p s).1, lower (span p s).2).
Proof.
  intros Hp. induction s as [|c s IH]; [done|]. simpl. rewrite Hp.
  destruct (p c); [|done]. rewrite IH. by destruct (span p s).
Qed.

Lemma match_rank_here_lower (s : string) :
  match_rank_here (lower s) = lower <$> match_rank_here s.
Proof.
  destruct s as [|c1 [|c2 [|c3 [|c4 rest]]]]; try done.
  change (lower (String c1 (String c2 (String c3 (String c4 rest)))))
    with (String (lower_char c1) (String (lower_char c2)
           (String (lower_char c3) (String (lower_char c4) (lower rest))))).
  unfold match_rank_here.
  rewrite !(proj2 (proj2 (lower_char_class _))).
  case_bool_decide; [|done].
  rewrite (span_lower isspace) by (intros c; apply lower_char_class).
  destruct (span isspace rest) as [ws after_ws]. simpl.
  rewrite (span_lower isdigit) by (intros c; apply lower_char_class).
  destruct (span isdigit after_ws) as [ds tail]. simpl.
  rewrite !truthy_lower. by destruct (truthy ws && truthy ds).
Qed.

Lemma search_rank_lower (s : string) :
  search_rank (lower s) = lower <$> search_rank s.
Proof.
  induction s as [|c s IH]; [done|].
  change (lower (String c s)) with (String (lower_char c) (lower s)).
  cbn [search_rank].
  change (String (lower_char c) (lower s)) with (lower (String c s)).
  rewrite match_rank_here_lower.
  destruct (match_rank_here (String c s)); [done|]. simpl. apply IH.
Qed.

Lemma has_rank_token_lower (s : string) :
  has_rank_token (lower s) = has_rank_token s.
Proof.
  unfold has_rank_token. rewrite search_rank_lower.
  by destruct (search_rank s).
Qed.


Lemma parse_row_short w csv_path (row : list string) :
  (length row < 2)%nat → parse_row w csv_path row = Returns None.
Proof.
  intros H. unfold parse_row.
  by rewrite (proj2 (Nat.ltb_lt _ _) H).
Qed.

Lemma row_fits_short (row : list string) : (length row < 2)%nat → row_fits row = true.
Proof. destruct row as [|f [|g rest]]; [done|done|]. simpl. lia. Qed.

Lemma parse_row_long w csv_path (row : list string) :
  (2 ≤ length row)%nat →
  row_fits row = true →
  ∃ fname rest,
    row = fname :: rest ∧
    parse_row w csv_path row =
    Returns
      (Some {| filename := fname;
               keywords := filter (λ i, is_keyword i = true) (row_items row);
               rank := default 1%Z (int_of_digits <$> last (omap search_rank (row_items row)));
               hash_code :=
                 (let h := default "" (lower <$> last (filter (λ i, is_hex64 i = true)
                                                              (row_items row))) in
                  if truthy h then h else sha256_hexdigest w fname);
               full_path := locate_file w csv_path fname |}).
Proof.
  intros H Hfit. destruct row as [|fname rest]; [simpl in H; lia|].
  exists fname, rest. split; [done|]. unfold parse_row.
  rewrite (proj2 (Nat.ltb_ge _ _) H). unfold row_fits, row_items in *. simpl tail in *.
  by rewrite (scan_items_spec _ Hfit).
Qed.

(** A row with a rank token [int] refuses gives no record: the exception
    of [int] leaves the body of the loop. *)
Lemma parse_row_raise w csv_path (row : list string) :
  row_fits row = false →
  ∃ item ds e, item ∈ row_items row ∧ search_rank item = Some ds
               ∧ (INT_MAX_STR_DIGITS < String.length ds)%nat
               ∧ int_of_text ds = Raises e
               ∧ parse_row w csv_path row = Raises e.
Proof.
  intros Hfit.
  destruct (Nat.ltb_spec (length row) 2) as [Hshort|Hlong].
  { by rewrite (row_fits_short row Hshort) in Hfit. }
  destruct row as [|fname rest]; [simpl in Hlong; lia|].
  unfold row_fits, row_items in *. simpl tail in *.
  destruct (scan_items_raise (stripped_nonempty rest) ([], 1%Z, "") Hfit)
    as (item & ds & e & Hin & Hs & Hlen & He & Hfold).
  exists item, ds, e. repeat (split; [done|]).
  unfold parse_row. rewrite (proj2 (Nat.ltb_ge _ _) Hlong). by rewrite Hfold.
Qed.


(** What is known of a row that gave a record. *)
Lemma parse_row_some w csv_path (row : list string) (r : ImageData) :
  parse_row w csv_path row = Returns (Some r) →
  ∃ fname rest,
    row = fname :: rest ∧
    r = {| filename := fname;
           keywords := filter (λ i, is_keyword i = true) (row_items row);
           rank := default 1%Z (int_of_digits <$> last (omap search_rank (row_items row)));
           hash_code :=
             (let h := default "" (lower <$> last (filter (λ i, is_hex64 i = true)
                                                          (row_items row))) in
              if truthy h then h else sha256_hexdigest w fname);
           full_path := locate_file w csv_path fname |}.
Proof.
  intros Hr.
  destruct (Nat.ltb_spec (length row) 2) as [Hshort|Hlong].
  { by rewrite (parse_row_short w csv_path row Hshort) in Hr. }
  destruct (row_fits row) eqn:Hfit.
  - destruct (parse_row_long w csv_path row Hlong Hfit) as (fname & rest & -> & Hr').
    rewrite Hr' in Hr. injection Hr as <-. by exists fname, rest.
  - destruct (parse_row_raise w csv_path row Hfit) as (? & ? & ? & _ & _ & _ & _ & Hr').
    by rewrite Hr' in Hr.
Qed.




(** C3, as stated, fails: the record of the example row holds both
    spellings of the repeated keyword, in the order of the row. *)
Lemma example_row_keeps_both_spellings :
  ∃ r, parse_row (sample_world true) "data.txt"
         ["photo1.jpg"; "cat"; "Cat"; "RANK 7"; "dog"; sample_hash] = Returns (Some r)
       ∧ keywords r = ["cat"; "Cat"; "dog"]
       ∧ ["cat"; "Cat"; "dog"] ≠ ["cat"; "dog"].
Proof.
  eexists. split; [vm_compute; reflexivity|]. split; [reflexivity | discriminate].
Qed.

(** C3, amended.  Whatever the 64-hex token, the example row gives a
    record whose keywords are [cat], [Cat], [dog] in the order of the row,
    whose rank is 7 and whose hash is the token in lower case. *)
Theorem example_row_record (w : World) (csv_path token : string) :
  is_hex64 token = true →
  ∃ r, parse_row w csv_path ["photo1.jpg"; "cat"; "Cat"; "RANK 7"; "dog"; token]
       = Returns (Some r)
       ∧ filename r = "photo1.jpg"
       ∧ keywords r = ["cat"; "Cat"; "dog"]
       ∧ rank r = 7%Z
       ∧ hash_code r = lower token.
Proof.
  intros Hhex. pose proof Hhex as [Hlen Hall]%andb_true_iff.
  unfold parse_row. simpl length. simpl Nat.ltb. cbv iota.
  change ["cat"; "Cat"; "RANK 7"; "dog"; token]
    with (["cat"; "Cat"; "RANK 7"; "dog"] ++ [token]).
  rewrite stripped_nonempty_app, fold_raising_app.
  rewrite (stripped_nonempty_cons token []), (hex_strip token Hall).
  assert (truthy token = true) as -> by (by destruct token).
  change (stripped_nonempty ["cat"; "Cat"; "RANK 7"; "dog"])
    with ["cat"; "Cat"; "RANK 7"; "dog"].
  change (fold_raising scan_item ([], 1%Z, "") ["cat"; "Cat"; "RANK 7"; "dog"])
    with (Returns (["cat"; "Cat"; "dog"], 7%Z, "")).
  change (6 <? 2)%nat with false.
  change ([token] ++ stripped_nonempty []) with [token].
  cbv iota. cbn [fold_raising]. unfold scan_item.
  rewrite (is_hex64_no_rank token Hhex), Hhex, (is_hex64_truthy_lower token Hhex).
  eexists. split; [reflexivity|]. done.
Qed.

(** C3 with [sample_hash] as the token. *)
Lemma example_row_record_witness :
  is_hex64 sample_hash = true
  ∧ ∃ r, parse_row (sample_world true) "data.txt"
           ["photo1.jpg"; "cat"; "Cat"; "RANK 7"; "dog"; sample_hash] = Returns (Some r)
         ∧ filename r = "photo1.jpg"
         ∧ keywords r = ["cat"; "Cat"; "dog"]
         ∧ rank r = 7%Z
         ∧ hash_code r = lower sample_hash.
Proof.
  split; [reflexivity|].
  apply (example_row_record (sample_world true) "data.txt" sample_hash).
  reflexivity.
Defined.

(** The loop from [out] gives [out] followed by what it gives from the
    empty list. *)
Lemma rows_loop_acc w csv_path (rows : list (list string)) (out : list ImageData) :
  rows_loop w csv_path out rows
  = (out ++ (parse_rows w csv_path rows).1, (parse_rows w csv_path rows).2).
Proof.
  unfold parse_rows. revert out.
  induction rows as [|row rows IH]; intros out; simpl.
  - by rewrite app_nil_r.
  - destruct (parse_row w csv_path row) as [[d|]|e]; simpl.
    + rewrite (IH (out ++ [d])), (IH [d]). simpl. by rewrite <- app_assoc.
    + apply IH.
    + by rewrite app_nil_r.
Qed.

Lemma parse_rows_cons w csv_path row (rows : list (list string)) :
  parse_rows w csv_path (row :: rows)
  = match parse_row w csv_path row with
    | Returns d => (option_list d ++ (parse_rows w csv_path rows).1,
                    (parse_rows w csv_path rows).2)
    | Raises e => ([], Some e)
    end.
Proof.
  unfold parse_rows at 1. simpl.
  destruct (parse_row w csv_path row) as [[d|]|e]; [| |done].
  - by rewrite rows_loop_acc.
  - by rewrite rows_loop_acc.
Qed.

Lemma parse_rows_app w csv_path (rows1 rows2 : list (list string)) :
  parse_rows w csv_path (rows1 ++ rows2)
  = match (parse_rows w csv_path rows1).2 with
    | Some e => parse_rows w csv_path rows1
    | None => ((parse_rows w csv_path rows1).1 ++ (parse_rows w csv_path rows2).1,
               (parse_rows w csv_path rows2).2)
    end.
Proof.
  induction rows1 as [|row rows1 IH].
  - simpl. by destruct (parse_rows w csv_path rows2).
  - simpl app. rewrite !parse_rows_cons.
    destruct (parse_row w csv_path row) as [d|e]; [|done]. simpl. rewrite IH.
    destruct (parse_rows w csv_path rows1) as [out [e|]]; simpl; [done|].
    by rewrite app_assoc.
Qed.




Lemma parse_csv_file_returns w csv_path (o : Output) :
  (parse_csv_file w csv_path o).1
  = Returns (parse_rows w csv_path (csv_reader w csv_path).1).1.
Proof.
  unfold parse_csv_file. destruct (csv_reader w csv_path) as [rows failure]. simpl.
  by destruct (parse_rows w csv_path rows) as [out [e|]], failure.
Qed.

(** C10.  A row of fewer than two fields gives no record and raises
    nothing, and the file is read as it would be without the row: the same
    records and the same end of the loop; when the rows before it are all
    gone through, the records are theirs followed by those of the rows
    after it.  What [parse_csv_file] returns is what it would return
    without the row. *)
Theorem short_rows_are_skipped (w : World) (csv_path : string)
    (before after : list (list string)) (row : list string)
    (failure : option exn) (o : Output) :
  (length row < 2)%nat →
  csv_reader w csv_path = (before ++ row :: after, failure) →
  parse_row w csv_path row = Returns None
  ∧ parse_rows w csv_path (before ++ row :: after)
    = parse_rows w csv_path (before ++ after)
  ∧ ((parse_rows w csv_path before).2 = None →
     (parse_rows w csv_path (before ++ row :: after)).1
     = (parse_rows w csv_path before).1 ++ (parse_rows w csv_path after).1)
  ∧ (parse_csv_file w csv_path o).1
    = Returns (parse_rows w csv_path (before ++ after)).1.
Proof.
  intros Hshort Hread.
  assert (parse_rows w csv_path (row :: after) = parse_rows w csv_path after) as Hrow.
  { rewrite parse_rows_cons, (parse_row_short w csv_path row Hshort). simpl.
    by destruct (parse_rows w csv_path after). }
  assert (parse_rows w csv_path (before ++ row :: after)
          = parse_rows w csv_path (before ++ after)) as Heq.
  { by rewrite !parse_rows_app, Hrow. }
  split; [by apply parse_row_short|]. split; [done|]. split.
  - intros Hnone. by rewrite parse_rows_app, Hnone, Hrow.
  - by rewrite parse_csv_file_returns, Hread, <- Heq.
Qed.

(** C10 on the rows of [data.txt]: the one-field row [stray] is skipped. *)
Lemma short_rows_are_skipped_witness :
  let w := sample_world true in
  (length ["stray"] < 2)%nat
  ∧ (parse_rows w "data.txt"
       ([["photo1.jpg"; "cat"; "Cat"; "RANK 7"; "dog"; sample_hash]]
        ++ ["stray"] :: [[]; ["b.jpg"; "dog"]])).1
    = (parse_rows w "data.txt"
         [["photo1.jpg"; "cat"; "Cat"; "RANK 7"; "dog"; sample_hash]]).1
      ++ (parse_rows w "data.txt" [[]; ["b.jpg"; "dog"]]).1.
Proof.
  cbv zeta.
  assert ((length ["stray"] < 2)%nat) as Hshort by (simpl; lia).
  split; [exact Hshort|].
  exact (proj1 (proj2 (proj2
    (short_rows_are_skipped (sample_world true) "data.txt"
       [["photo1.jpg"; "cat"; "Cat"; "RANK 7"; "dog"; sample_hash]]
       [[]; ["b.jpg"; "dog"]] ["stray"] None no_output Hshort eq_refl))) eq_refl).
Defined.

(** ** Extraction mode: rows and failures *)

Lemma for_each_eprint {A} (l : list A) (f : A → string) (o : Output) :
  for_each l (λ x, eprint (f x)) o =
  (Returns tt, {| stdout_rows := stdout_rows o;
                  stderr_lines := stderr_lines o ++ (f <$> l);
                  launched := launched o |}).
Proof.
  revert o. induction l as [|x l IH]; intros o; simpl.
  - unfold ret. rewrite app_nil_r. by destruct o.
  - unfold bind, eprint at 1. rewrite IH. simpl. by rewrite <- app_assoc.
Qed.

Lemma handle_failure_spec w args full_path e (o : Output) :
  let r := handle_failure w args full_path e o in
  r.1 = Returns tt
  ∧ stdout_rows r.2 = stdout_rows o ++ [[full_path; diagnostic e]]
  ∧ launched r.2 = launched o.
Proof. destruct e, (debug args) eqn:Hd; unfold handle_failure; rewrite Hd; done. Qed.

Ltac by_handler :=
  match goal with
  | |- context [handle_failure ?w ?a ?f ?e ?o'] =>
      destruct (handle_failure_spec w a f e o') as (-> & -> & ->); done
  end.

Lemma run_for_file_spec w path args (o : Output) :
  let r := run_for_file w path args o in
  r.1 = Returns tt
  ∧ stdout_rows r.2 = stdout_rows o ++ file_rows w args path
  ∧ launched r.2 = launched o.
Proof.
  unfold run_for_file, read_image, file_rows, row_tail, request_and_write.
  unfold mbind, io_bind, mret, io_ret, bind, catch, lift, ret, when.
  destruct (debug args) eqn:Hd; simpl.
  all: destruct (read_b64 w path) as [image_b64|e0]; simpl;
    [|by rewrite app_nil_r].
  all: destruct (do_request w chat_url _ (timeout args)) as [[[status headers] resp_bytes]|e1];
    simpl; [|by_handler].
  all: try (unfold bind; rewrite for_each_eprint; simpl).
  all: destruct (json_loads w resp_bytes) as [resp_json|e2]; simpl;
    [|by_handler].
  all: destruct (extract_text_from_response resp_json) as [[text|]|e3]; simpl;
    [| done | by_handler].
  all: destruct (truthy text); simpl; [|done].
  all: destruct (file_sha256_hex w path) as [sha|e4]; simpl;
    [done | by_handler].
Qed.

Lemma run_for_file_unreadable w path args (o : Output) e :
  read_b64 w path = Raises e →
  run_for_file w path args o =
  (Returns tt,
   {| stdout_rows := stdout_rows o;
      stderr_lines := stderr_lines o ++
        [path_resolve w path +:+ ": Failed to read or encode image: " +:+ exn_str e];
      launched := launched o |}).
Proof.
  intros He. unfold run_for_file, read_image.
  unfold mbind, io_bind, mret, io_ret, bind, catch, lift, ret.
  by rewrite He.
Qed.

Lemma fails_after_read_rows w args path e :
  fails_after_read w args path e →
  file_rows w args path = [[path_resolve w path; diagnostic e]].
Proof.
  unfold file_rows, row_tail.
  destruct 1 as [b64 e Hr Hq | b64 st hd body e Hr Hq Hj
                | b64 st hd body j e Hr Hq Hj Hx
                | b64 st hd body j text e Hr Hq Hj Hx Ht Hs];
    rewrite Hr, Hq; try rewrite Hj; try rewrite Hx; try rewrite Ht; try rewrite Hs;
    done.
Qed.

Lemma for_each_run_for_file w args (imgs : list string) (o : Output) :
  let r := for_each imgs (λ img, run_for_file w img args) o in
  r.1 = Returns tt
  ∧ stdout_rows r.2 = stdout_rows o ++ mjoin (file_rows w args <$> imgs)
  ∧ launched r.2 = launched o.
Proof.
  revert o. induction imgs as [|img imgs IH]; intros o; simpl.
  - by rewrite app_nil_r.
  - unfold bind.
    destruct (run_for_file_spec w img args o) as (Hr & Hout & Hl).
    destruct (run_for_file w img args o) as [[[]|e] o1]; simpl in *; [|done].
    destruct (IH o1) as (IHr & IHout & IHl).
    split; [done|]. split; [|congruence].
    by rewrite IHout, Hout, <- app_assoc.
Qed.

(** C4, as stated, fails: a file that cannot be read gets no row. *)
Lemma unreadable_file_gets_no_row :
  (∃ e, read_b64 (sample_world true) "gone.jpg" = Raises e)
  ∧ stdout_rows (run_for_file (sample_world true) "gone.jpg"
                   (sample_args ["gone.jpg"]) no_output).2 = [].
Proof. split; [by eexists | reflexivity]. Qed.

(** C4, amended.  No exception leaves [run_for_file], so the loop of
    [main] goes on with the next file from the output the file left.  A
    file that cannot be read or encoded gets one line on standard error
    and no row.  Any later failure of the file, in the request, in
    decoding the answer, in extracting the text or in hashing, gets exactly
    one row: the resolved path and the diagnostic; for an endpoint that
    cannot be reached that is [Connection Error: <reason>]. *)
Theorem failures_caught_per_file (w : World) (args : Args) (path : string)
    (rest : list string) (o : Output) :
  let after := (run_for_file w path args o).2 in
  (run_for_file w path args o).1 = Returns tt
  ∧ for_each (path :: rest) (λ img, run_for_file w img args) o
    = for_each rest (λ img, run_for_file w img args) after
  ∧ (∀ e, read_b64 w path = Raises e →
          stdout_rows after = stdout_rows o
          ∧ stderr_lines after = stderr_lines o ++
              [path_resolve w path +:+ ": Failed to read or encode image: "
               +:+ exn_str e])
  ∧ (∀ e, fails_after_read w args path e →
          stdout_rows after = stdout_rows o ++ [[path_resolve w path; diagnostic e]])
  ∧ (∀ reason, fails_after_read w args path (URLError reason) →
          stdout_rows after
          = stdout_rows o ++ [[path_resolve w path; "Connection Error: " +:+ reason]]).
Proof.
  destruct (run_for_file_spec w path args o) as (Hr & Hout & _). simpl.
  split; [done|]. split.
  { unfold bind. by destruct (run_for_file w path args o) as [[[]|e] o1]. }
  split.
  { intros e He. by rewrite (run_for_file_unreadable _ _ _ _ _ He). }
  split.
  - intros e He. by rewrite Hout, (fails_after_read_rows _ _ _ _ He).
  - intros reason He. by rewrite Hout, (fails_after_read_rows _ _ _ _ He).
Qed.

(** C4 on a file that cannot be read and on a refused connection. *)
Lemma failures_caught_per_file_witness :
  let w := sample_world true in
  let args := sample_args ["gone.jpg"; "a.jpg"] in
  (read_b64 w "gone.jpg" = Raises (OtherError "[Errno 2] No such file or directory: 'gone.jpg'")
   ∧ stdout_rows (run_for_file w "gone.jpg" args no_output).2 = [])
  ∧ (fails_after_read w args "a.jpg" (URLError "[Errno 111] Connection refused")
     ∧ stdout_rows (run_for_file w "a.jpg" args no_output).2
       = [["/home/u/a.jpg"; "Connection Error: [Errno 111] Connection refused"]]).
Proof.
  simpl.
  assert (read_b64 (sample_world true) "gone.jpg"
          = Raises (OtherError "[Errno 2] No such file or directory: 'gone.jpg'"))
    as Hgone by reflexivity.
  assert (fails_after_read (sample_world true) (sample_args ["gone.jpg"; "a.jpg"])
            "a.jpg" (URLError "[Errno 111] Connection refused")) as Hrefused
    by (by eapply fails_in_request).
  split; (split; [done|]).
  - exact (proj1 (proj1 (proj2 (proj2
      (failures_caught_per_file (sample_world true) (sample_args ["gone.jpg"; "a.jpg"])
         "gone.jpg" ["a.jpg"] no_output))) _ Hgone)).
  - exact (proj2 (proj2 (proj2 (proj2
      (failures_caught_per_file (sample_world true) (sample_args ["gone.jpg"; "a.jpg"])
         "a.jpg" [] no_output)))) _ Hrefused).
Defined.

Lemma process_keywords_body (text sha : string) :
  ∃ body, process_keywords text sha = body ++ [sha]
    ∧ (∀ kw, kw ∈ body → kw ∈ keyword_parts text)
    ∧ (∀ piece, piece ∈ keyword_parts text →
                ∃ kw, kw ∈ body ∧ lower kw = lower piece).
Proof.
  pose proof (keep_inv_foldl lower (keyword_parts text)) as Hinv.
  set (st := foldl (keep_step lower) ([], ∅, 0) (keyword_parts text)) in *.
  exists (sort_by_key lower st.1.1). rewrite process_keywords_unfold. fold st.
  split; [done|]. split.
  - intros kw Hkw. rewrite sort_by_key_perm in Hkw.
    eapply elem_of_sublist; [exact Hkw | apply (ki_sub _ _ _ Hinv)].
  - intros piece Hpiece.
    pose proof (keep_inv_covers lower _ _ piece Hinv Hpiece) as Hc.
    apply list_elem_of_fmap in Hc as (kw & Hlow & Hkw).
    exists kw. by rewrite sort_by_key_perm.
Qed.

(** C1, amended.  When the model answers a readable file with a non-empty
    text, the row written is the resolved path, a body, and the hash of
    the file as the one field after the body.  The body holds pieces of
    the text only, and for every piece with a [RANK n] token it holds a
    piece with a rank token that equals it up to case: the rank token is
    not removed.  For [blue, sky, RANK 8, photo] the body is [blue],
    [photo], [RANK 8], [sky]. *)
Theorem rank_token_kept_in_row (w : World) (args : Args) (path : string) (o : Output)
    (image_b64 : string) (status : Z) (headers : list (string * string))
    (resp_bytes : string) (resp_json : json) (text sha : string) :
  read_b64 w path = Returns image_b64 →
  do_request w chat_url (build_chat_payload MODEL_NAME PROMPT_TEMPLATE image_b64)
             (timeout args) = Returns (status, headers, resp_bytes) →
  json_loads w resp_bytes = Returns resp_json →
  extract_text_from_response resp_json = Returns (Some text) →
  truthy text = true →
  file_sha256_hex w path = Returns sha →
  ∃ body,
    stdout_rows (run_for_file w path args o).2
    = stdout_rows o ++ [path_resolve w path :: body ++ [sha]]
    ∧ (∀ kw, kw ∈ body → kw ∈ keyword_parts text)
    ∧ (∀ piece, piece ∈ keyword_parts text → has_rank_token piece = true →
                ∃ kw, kw ∈ body ∧ lower kw = lower piece ∧ has_rank_token kw = true)
    ∧ (text = "blue, sky, RANK 8, photo" → body = ["blue"; "photo"; "RANK 8"; "sky"]).
Proof.
  intros Hr Hq Hj Hx Ht Hs.
  destruct (process_keywords_body text sha) as (body & Hbody & Hfrom & Hcover).
  exists body.
  destruct (run_for_file_spec w path args o) as (_ & -> & _).
  unfold file_rows, row_tail. rewrite Hr, Hq, Hj, Hx, Ht, Hs, Hbody.
  split; [done|]. split; [done|]. split.
  - intros piece Hpiece Hrank. destruct (Hcover piece Hpiece) as (kw & Hkw & Hlow).
    exists kw. split; [done|]. split; [done|].
    by rewrite <- has_rank_token_lower, Hlow, has_rank_token_lower.
  - intros ->.
    change (process_keywords "blue, sky, RANK 8, photo" sha)
      with (["blue"; "photo"; "RANK 8"; "sky"] ++ [sha]) in Hbody.
    by apply app_inj_tail in Hbody as [<- _].
Qed.

(** The example of C1 on a machine whose endpoint answers with the text. *)
Lemma rank_token_kept_in_row_witness :
  let w := answering_world
             (JDict [("message", JDict [("role", JStr "assistant");
                                        ("content", JStr "blue, sky, RANK 8, photo")])]) in
  stdout_rows (run_for_file w "a.jpg" (sample_args ["a.jpg"]) no_output).2
  = [["/home/u/a.jpg"; "blue"; "photo"; "RANK 8"; "sky"; sample_hash]].
Proof.
  cbv zeta.
  destruct (rank_token_kept_in_row
           (answering_world
              (JDict [("message", JDict [("role", JStr "assistant");
                                         ("content", JStr "blue, sky, RANK 8, photo")])]))
           (sample_args ["a.jpg"]) "a.jpg" no_output "QUJD" 200%Z
           [("Content-Type", "application/json")] "{}"
           (JDict [("message", JDict [("role", JStr "assistant");
                                      ("content", JStr "blue, sky, RANK 8, photo")])])
           "blue, sky, RANK 8, photo" sample_hash
           eq_refl eq_refl eq_refl eq_refl eq_refl eq_refl)
    as (body & Hrow & _ & _ & Hbody).
  rewrite Hrow, (Hbody eq_refl). reflexivity.
Defined.

(** ** [main]: the exit status *)






(** ** [extract_text_from_response] *)

(** The order of the fallbacks when the first entry of [choices], if there
    is one, is a [dict]. *)
Lemma extract_text_order (d : list (string * json)) :
  match dict_get d "choices" with
  | Some (JList (first :: _)) => ∃ f, first = JDict f
  | _ => True
  end →
  extract_text_from_response (JDict d) =
  Returns
    (match str_at d "response" with
     | Some s => Some s
     | None =>
         match content_under d "message" with
         | Some s => Some s
         | None =>
             match (match dict_get d "choices" with
                    | Some (JList (JDict f :: _)) =>
                        match content_under f "message" with
                        | Some s => Some s
                        | None => str_at f "content"
                        end
                    | _ => None
                    end) with
             | Some s => Some s
             | None => fallback_keys d
             end
         end
     end).
Proof.
  intros Hshape. unfold extract_text_from_response.
  destruct (str_at d "response"); [done|].
  destruct (content_under d "message"); [done|].
  destruct (dict_get d "choices") as [[| | | | |[|first rest]|]|]; try done.
  destruct Hshape as [f ->].
  destruct (content_under f "message"); [done|].
  by destruct (str_at f "content").
Qed.

Lemma extract_text_not_dict (v : json) :
  (∀ d, v ≠ JDict d) → extract_text_from_response v = Returns None.
Proof. intros H. destruct v; try done. by destruct (H items). Qed.

(** C9: the code leaves the fallback order on a response whose first
    [choices] entry is no [dict].  For [{"choices": [5], "text": "hi"}]
    it raises [AttributeError] where the order described reaches the key
    [text]. *)
Theorem extract_text_fails_on_scalar_choice :
  extract_text_from_response
    (JDict [("choices", JList [JInt 5]); ("text", JStr "hi")])
  = Raises (OtherError "'int' object has no attribute 'get'")
  ∧ fallback_keys [("choices", JList [JInt 5]); ("text", JStr "hi")] = Some "hi".
Proof. split; reflexivity. Qed.

(** * Further properties *)

(** ** Text: stripping and splitting *)

Lemma lstrip_idem (s : string) : lstrip (lstrip s) = lstrip s.
Proof.
  induction s as [|c s IH]; [done|]. simpl.
  destruct (isspace c) eqn:Hc; [done|]. simpl. by rewrite Hc.
Qed.

Lemma rstrip_idem (s : string) : rstrip (rstrip s) = rstrip s.
Proof.
  induction s as [|c s IH]; [done|]. simpl.
  destruct (rstrip s) as [|c' s'] eqn:Hs.
  - destruct (isspace c) eqn:Hc; [done|]. simpl. by rewrite Hc.
  - remember (String c' s') as t. simpl. rewrite IH. by subst t.
Qed.

Lemma strip_idem (s : string) : strip (strip s) = strip s.
Proof.
  unfold strip. rewrite <- (strip_comm (lstrip s)).
  by rewrite lstrip_idem, rstrip_idem.
Qed.

Lemma stripped_nonempty_elem (l : list string) (x : string) :
  x ∈ stripped_nonempty l → strip x = x ∧ truthy x = true.
Proof.
  unfold stripped_nonempty. intros (y & -> & Hy)%list_elem_of_fmap.
  apply list_elem_of_filter in Hy as [Hy _]. by rewrite strip_idem.
Qed.


Lemma lstrip_chars (s : string) c : c ∈ chars (lstrip s) → c ∈ chars s.
Proof.
  induction s as [|d s IH]; [done|]. simpl.
  destruct (isspace d); [|done]. intros H. apply list_elem_of_further. by apply IH.
Qed.

Lemma rstrip_chars (s : string) c : c ∈ chars (rstrip s) → c ∈ chars s.
Proof.
  revert c. induction s as [|d s IH]; intros c; [done|]. simpl.
  destruct (rstrip s) as [|c' s'] eqn:Hs.
  - destruct (isspace d); [by intros ?%elem_of_nil|].
    intros ->%list_elem_of_singleton. apply list_elem_of_here.
  - intros [->|H]%elem_of_cons; [apply list_elem_of_here|].
    apply list_elem_of_further. by apply IH.
Qed.

Lemma strip_chars (s : string) c : c ∈ chars (strip s) → c ∈ chars s.
Proof. intros H. by apply lstrip_chars, rstrip_chars. Qed.

Lemma split_pieces_no_sep sep (s piece : string) :
  piece ∈ split sep s → sep ∉ chars piece.
Proof.
  revert piece. induction s as [|c s IH]; intros piece; simpl.
  - intros ->%list_elem_of_singleton. by intros ?%elem_of_nil.
  - destruct (Ascii.eqb_spec c sep) as [->|Hne].
    + intros [->|H]%elem_of_cons; [by intros ?%elem_of_nil | by apply IH].
    + pose proof (split_nonempty sep s) as Hs.
      destruct (split sep s) as [|h t]; [done|].
      intros [->|H]%elem_of_cons.
      * intros [?|Hin]%elem_of_cons; [done|].
        by apply (IH h (list_elem_of_here _ _)).
      * apply IH. by apply list_elem_of_further.
Qed.

Lemma keyword_parts_clean (text kw : string) :
  kw ∈ keyword_parts text →
  strip kw = kw ∧ truthy kw = true ∧ ","%char ∉ chars kw.
Proof.
  intros Hkw. destruct (stripped_nonempty_elem _ _ Hkw) as [Hs Ht].
  split; [done|]. split; [done|].
  unfold keyword_parts, stripped_nonempty in Hkw.
  apply list_elem_of_fmap in Hkw as (piece & -> & Hp).
  apply list_elem_of_filter in Hp as [_ Hp].
  intros Hc%strip_chars. by apply (split_pieces_no_sep _ _ _ Hp).
Qed.

(** A text of commas and white space only has no keyword. *)
Lemma blank_text_no_parts (text : string) :
  Forall (λ c, isspace c = true ∨ c = ","%char) (chars text) →
  stripped_nonempty (split "," text) = [].
Proof.
  intros H.
  assert (Forall (λ p, strip p = EmptyString) (split "," text)) as Hall.
  { induction text as [|c text IH]; [by repeat constructor|].
    simpl in H. apply Forall_cons in H as [Hc H]. specialize (IH H). simpl.
    destruct (Ascii.eqb_spec c ",") as [->|Hne]; [by constructor|].
    destruct Hc as [Hc|Hc]; [|done].
    pose proof (split_nonempty "," text) as Hs.
    destruct (split "," text) as [|h t]; [done|].
    apply Forall_cons in IH as [Hh Ht]. constructor; [|done].
    unfold strip in *. simpl. by rewrite Hc. }
  induction Hall as [|p l Hp _ IH]; [done|].
  by rewrite stripped_nonempty_cons, Hp, IH.
Qed.

(** ** [process_keywords]: the shape of a row *)

(** X1.  Every keyword [process_keywords] returns before the hash is
    non-empty, has no white space at either end and holds no comma. *)
Theorem process_keywords_keywords_are_clean (raw_text sha256_hex : string) :
  ∃ body,
    process_keywords raw_text sha256_hex = body ++ [sha256_hex]
    ∧ Forall (λ kw, strip kw = kw ∧ kw ≠ EmptyString ∧ ","%char ∉ chars kw) body.
Proof.
  destruct (process_keywords_body raw_text sha256_hex) as (body & Hbody & Hfrom & _).
  exists body. split; [done|]. apply Forall_forall. intros kw Hkw.
  destruct (keyword_parts_clean raw_text kw (Hfrom kw Hkw)) as (Hs & Ht & Hc).
  split; [done|]. split; [|done]. by destruct kw.
Qed.

Lemma process_keywords_length (raw_text sha256_hex : string) :
  length (process_keywords raw_text sha256_hex)
  = S (size (list_to_set (lower <$> keyword_parts raw_text) : gset string)).
Proof.
  rewrite process_keywords_unfold, length_app. simpl.
  rewrite (Permutation_length (sort_by_key_perm lower _)).
  rewrite (keep_inv_length lower _ _ (keep_inv_foldl lower (keyword_parts raw_text))).
  lia.
Qed.

(** X2.  The row has one field for each keyword of the text, counted
    without regard to case, and one for the hash; a text of commas and
    white space only gives the hash alone. *)
Theorem process_keywords_row_length (raw_text sha256_hex : string) :
  length (process_keywords raw_text sha256_hex)
  = S (size (list_to_set (lower <$> keyword_parts raw_text) : gset string))
  ∧ (Forall (λ c, isspace c = true ∨ c = ","%char) (chars raw_text) →
     process_keywords raw_text sha256_hex = [sha256_hex]).
Proof.
  split; [apply process_keywords_length|].
  intros Hblank. unfold process_keywords, keyword_parts.
  by rewrite (blank_text_no_parts raw_text Hblank).
Qed.

(** X2 on a text of separators. *)
Lemma process_keywords_row_length_witness :
  Forall (λ c, isspace c = true ∨ c = ","%char) (chars " , ,,  ")
  ∧ process_keywords " , ,,  " sample_hash = [sample_hash].
Proof.
  assert (Forall (λ c, isspace c = true ∨ c = ","%char) (chars " , ,,  ")) as H.
  { repeat constructor; by (left + right). }
  split; [exact H|].
  exact (proj2 (process_keywords_row_length " , ,,  " sample_hash) H).
Defined.

Lemma dedup_step_seen (l : list string) (seen : gset string) (cleaned : list string) :
  (∀ kw, kw ∈ l → lower kw ∈ seen) →
  foldl dedup_step (seen, cleaned) l = (seen, cleaned).
Proof.
  induction l as [|kw l IH]; intros Hin; [done|]. simpl.
  rewrite decide_True by (apply Hin, list_elem_of_here).
  apply IH. intros kw' Hkw'. by apply Hin, list_elem_of_further.
Qed.

(** X3.  Keywords added at the end of a text change nothing when each of
    them is, up to case, already in the text. *)
Theorem process_keywords_ignores_repeats (raw_text more sha256_hex : string) :
  (∀ kw, kw ∈ keyword_parts more → lower kw ∈ lower <$> keyword_parts raw_text) →
  process_keywords (raw_text +:+ "," +:+ more) sha256_hex
  = process_keywords raw_text sha256_hex.
Proof.
  intros Hrep. unfold process_keywords, keyword_parts.
  change ("," +:+ more) with (String "," more).
  rewrite split_app_sep, stripped_nonempty_app, foldl_app.
  fold (keyword_parts raw_text). fold (keyword_parts more).
  pose proof (keep_inv_foldl lower (keyword_parts raw_text)) as Hinv.
  rewrite (dedup_step_keep (keyword_parts raw_text) ∅ [] 0).
  set (st := foldl (keep_step lower) ([], ∅, 0) (keyword_parts raw_text)) in *.
  simpl. rewrite dedup_step_seen; [done|].
  intros kw Hkw. rewrite (ki_seen _ _ _ Hinv).
  apply elem_of_list_to_set. by apply Hrep.
Qed.

(** X3 on a repeated keyword in another case. *)
Lemma process_keywords_ignores_repeats_witness :
  process_keywords ("blue, sky" +:+ "," +:+ " SKY , Blue") sample_hash
  = process_keywords "blue, sky" sample_hash.
Proof.
  apply (process_keywords_ignores_repeats "blue, sky" " SKY , Blue" sample_hash).
  intros kw Hkw. vm_compute in Hkw.
  apply elem_of_cons in Hkw as [->|Hkw].
  - vm_compute. apply list_elem_of_further, list_elem_of_here.
  - apply list_elem_of_singleton in Hkw as ->. vm_compute. apply list_elem_of_here.
Defined.

(** ** CSV records: what a row gives *)

Lemma int_of_digits_nonneg (ds : string) : (0 ≤ int_of_digits ds)%Z.
Proof.
  unfold int_of_digits.
  assert (∀ (l : list ascii) (acc : Z), (0 ≤ acc)%Z →
            (0 ≤ foldl (λ acc c, acc * 10 + Z.of_N (code c - 48))%Z acc l)%Z) as H.
  { induction l as [|c l IH]; intros acc Hacc; [done|]. simpl. apply IH. lia. }
  by apply H.
Qed.

Lemma lower_idem (s : string) : lower (lower s) = lower s.
Proof.
  induction s as [|c s IH]; [done|]. simpl.
  by rewrite IH, (proj2 (proj2 (lower_char_class c))).
Qed.

Lemma ishex_lower_char c : ishex c = true → ishex (lower_char c) = true.
Proof. by destruct c as [[] [] [] [] [] [] [] []]. Qed.

Lemma is_hex64_lower (s : string) : is_hex64 s = true → is_hex64 (lower s) = true.
Proof.
  unfold is_hex64. intros [Hlen Hall]%andb_true_iff. apply andb_true_iff. split.
  - rewrite <- Hlen. f_equal. clear. induction s; simpl; congruence.
  - clear Hlen. induction s as [|c s IH]; [done|]. simpl in *.
    apply andb_true_iff in Hall as [Hc Hs].
    by rewrite (ishex_lower_char c Hc), IH.
Qed.










(** X6.  The hash of a record is the last hash token of its row in lower
    case, itself a 64-hex token; without a hash token it is the SHA-256 of
    the text of the first field. *)
Theorem record_hash_token_or_name_digest (w : World) (csv_path : string)
    (row : list string) (r : ImageData) :
  parse_row w csv_path row = Returns (Some r) →
  ((∀ item, item ∈ row_items row → is_hex64 item = false) →
   hash_code r = sha256_hexdigest w (filename r))
  ∧ (∀ item, item ∈ row_items row → is_hex64 item = true →
       is_hex64 (hash_code r) = true
       ∧ lower (hash_code r) = hash_code r
       ∧ ∃ token, token ∈ row_items row ∧ is_hex64 token = true
                  ∧ hash_code r = lower token).
Proof.
  intros Hr.
  destruct (parse_row_some w csv_path row r Hr) as (fname & rest & -> & ->).
  simpl hash_code. simpl filename.
  set (items := row_items (fname :: rest)). split.
  - intros Hnone.
    assert (filter (λ i, is_hex64 i = true) items = []) as ->; [|done].
    clear Hr. induction items as [|x xs IH]; [done|]. rewrite filter_cons.
    rewrite decide_False by (rewrite (Hnone x (list_elem_of_here _ _)); done).
    apply IH. intros item Hin. by apply Hnone, list_elem_of_further.
  - intros item Hin Hhex.
    destruct (last (filter (λ i, is_hex64 i = true) items)) as [token|] eqn:Hlast.
    + pose proof Hlast as Htok%last_Some_elem_of.
      apply list_elem_of_filter in Htok as [Htok Hin'].
      simpl. rewrite (is_hex64_truthy_lower token Htok).
      split; [by apply is_hex64_lower|]. split; [apply lower_idem|]. by exists token.
    + apply last_None in Hlast.
      assert (item ∈ filter (λ i, is_hex64 i = true) items) as Hitem
        by (by apply list_elem_of_filter).
      rewrite Hlast in Hitem. by apply elem_of_nil in Hitem.
Qed.

(** X6 on a row without a hash token and on one with an upper-case token. *)
Lemma record_hash_token_or_name_digest_witness :
  let w := sample_world true in
  (∃ r, parse_row w "data.txt" ["b.jpg"; "dog"] = Returns (Some r)
        ∧ hash_code r = other_hash)
  ∧ (∃ r, parse_row w "data.txt"
            ["b.jpg"; "ABC123ABC123ABC123ABC123ABC123ABC123ABC123ABC123ABC123ABC123ABCD"]
          = Returns (Some r)
          ∧ hash_code r = sample_hash).
Proof.
  cbv zeta. split.
  - destruct (parse_row (sample_world true) "data.txt" ["b.jpg"; "dog"])
      as [[r|]|e] eqn:Hr; [|discriminate Hr|discriminate Hr].
    exists r. split; [reflexivity|].
    rewrite (proj1 (record_hash_token_or_name_digest _ _ _ _ Hr)); [reflexivity|].
    intros item Hin. vm_compute in Hin.
    apply list_elem_of_singleton in Hin as ->. reflexivity.
  - destruct (parse_row (sample_world true) "data.txt"
                ["b.jpg"; "ABC123ABC123ABC123ABC123ABC123ABC123ABC123ABC123ABC123ABC123ABCD"])
      as [[r|]|e] eqn:Hr; [|discriminate Hr|discriminate Hr].
    exists r. split; [reflexivity|].
    injection Hr as <-. reflexivity.
Defined.

(** X7.  The rank of a record is never negative. *)
Theorem record_rank_not_negative (w : World) (csv_path : string)
    (row : list string) (r : ImageData) :
  parse_row w csv_path row = Returns (Some r) → (0 ≤ rank r)%Z.
Proof.
  intros Hr.
  destruct (parse_row_some w csv_path row r Hr) as (fname & rest & -> & ->).
  simpl rank.
  destruct (last (omap search_rank (row_items (fname :: rest)))) as [ds|]; simpl; [|lia].
  apply int_of_digits_nonneg.
Qed.

(** X7 on a row whose rank token is [RANK 0]. *)
Lemma record_rank_not_negative_witness :
  ∃ r, parse_row (sample_world true) "data.txt" ["a.jpg"; "RANK 0"] = Returns (Some r)
       ∧ (0 ≤ rank r)%Z.
Proof.
  eexists. split; [reflexivity|].
  eapply (record_rank_not_negative (sample_world true) "data.txt" ["a.jpg"; "RANK 0"]).
  reflexivity.
Defined.



(** X9.  The path a record is given is the resolved form of the first of
    three places where the file exists: the name as written, the name
    beside the CSV file, the name in the working directory.  It is absent
    exactly when the file is in none of them. *)
Theorem record_path_is_first_existing (w : World) (csv_path : string)
    (row : list string) (r : ImageData) :
  parse_row w csv_path row = Returns (Some r) →
  let beside := path_join w (path_parent w csv_path) (filename r) in
  let in_cwd := path_join w (path_cwd w) (filename r) in
  full_path r =
    (if path_exists w (filename r) then Some (path_resolve w (filename r))
     else if path_exists w beside then Some (path_resolve w beside)
     else if path_exists w in_cwd then Some (path_resolve w in_cwd)
     else None)
  ∧ (∀ p, full_path r = Some p →
          ∃ place, place ∈ [filename r; beside; in_cwd]
                   ∧ path_exists w place = true ∧ p = path_resolve w place).
Proof.
  intros Hr.
  destruct (parse_row_some w csv_path row r Hr) as (fname & rest & -> & ->).
  simpl filename. simpl full_path.
  unfold locate_file. simpl.
  destruct (path_exists w fname) eqn:H1; simpl.
  { split; [done|]. intros p [= <-]. exists fname. split; [apply list_elem_of_here|done]. }
  destruct (path_exists w (path_join w (path_parent w csv_path) fname)) eqn:H2; simpl.
  { split; [done|]. intros p [= <-]. eexists. split; [|done].
    apply list_elem_of_further, list_elem_of_here. }
  destruct (path_exists w (path_join w (path_cwd w) fname)) eqn:H3; simpl.
  { split; [done|]. intros p [= <-]. eexists. split; [|done].
    do 2 apply list_elem_of_further. apply list_elem_of_here. }
  done.
Qed.

(** X9 on the first row of [data.txt], whose image is nowhere. *)
Lemma record_path_is_first_existing_witness :
  ∃ r, parse_row (sample_world true) "data.txt" ["b.jpg"; "dog"] = Returns (Some r)
       ∧ full_path r = None.
Proof.
  eexists. split; [reflexivity|].
  exact (proj1 (record_path_is_first_existing (sample_world true) "data.txt"
                  ["b.jpg"; "dog"] _ eq_refl)).
Defined.

(** ** From an extraction row back to a record *)




(** ** The viewer: matching modes and the filter text *)

Lemma prefix_refl (s : string) : String.prefix s s = true.
Proof.
  induction s as [|c s IH]; [done|]. simpl.
  by destruct (ascii_dec c c).
Qed.

Lemma contains_refl (s : string) : contains s s = true.
Proof. destruct s; [done|]. cbn [contains]. by rewrite prefix_refl. Qed.

Lemma exact_implies_partial (img : ImageData) (kws : list string) :
  matches_keywords img kws false = true → matches_keywords img kws true = true.
Proof.
  unfold matches_keywords. destruct kws as [|k0 kws]; [done|].
  rewrite !existsb_exists. intros (k & Hk & Hin). exists k. split; [done|].
  apply bool_decide_eq_true in Hin.
  apply elem_of_list_to_set, list_elem_of_fmap in Hin as (kw & Hlow & Hkw).
  apply existsb_exists. exists kw. split; [by apply list_elem_of_In|].
  rewrite Hlow. apply contains_refl.
Qed.

Lemma shown_hashes (self : ImageViewer) :
  (list_to_set (hash_code <$> filtered_images (_apply_filters self)) : gset string)
  = list_to_set (hash_code <$> passing self).
Proof.
  destruct (apply_filters_unfold self) as [-> _].
  pose proof (keep_inv_foldl hash_code (passing self)) as Hinv.
  by rewrite <- (ki_seen_kept _ _ _ Hinv), (ki_seen _ _ _ Hinv).
Qed.

(** X11.  Partial matching shows at least what exact matching shows: a
    record that matches a filter exactly matches it partially, every hash
    shown with exact matching is shown with partial matching, and the
    filtered list is no shorter. *)
Theorem partial_shows_what_exact_shows (images : list ImageData) (entry : string)
    (min_rank : Z) :
  let exact := filtered_images (viewer_with images entry min_rank false) in
  let partial := filtered_images (viewer_with images entry min_rank true) in
  (∀ img kws, matches_keywords img kws false = true →
              matches_keywords img kws true = true)
  ∧ (∀ h, h ∈ hash_code <$> exact → h ∈ hash_code <$> partial)
  ∧ (length exact ≤ length partial)%nat.
Proof.
  simpl. split; [apply exact_implies_partial|]. split.
  - intros h Hh. unfold viewer_with in *.
    apply (elem_of_list_to_set (C := gset string)) in Hh.
    apply (elem_of_list_to_set (C := gset string)).
    rewrite shown_hashes in *.
    apply elem_of_list_to_set, list_elem_of_fmap in Hh as (img & -> & Himg).
    apply elem_of_list_to_set, list_elem_of_fmap. exists img. split; [done|].
    unfold passing, passes in *. simpl in *.
    apply list_elem_of_filter in Himg as [Hp Hin]. apply list_elem_of_filter.
    split; [|done]. apply andb_true_iff in Hp as [Hk Hr].
    by rewrite (exact_implies_partial _ _ Hk), Hr.
  - unfold viewer_with. apply filtered_length_mono; [done|].
    intros img. unfold passes. simpl. intros [Hk Hr]%andb_true_iff.
    by rewrite (exact_implies_partial _ _ Hk), Hr.
Qed.

Lemma lower_char_comma c : Ascii.eqb (lower_char c) "," = Ascii.eqb c ",".
Proof. by destruct c as [[] [] [] [] [] [] [] []]. Qed.

Lemma split_lower (s : string) : split "," (lower s) = lower <$> split "," s.
Proof.
  induction s as [|c s IH]; [done|]. simpl. rewrite lower_char_comma, IH.
  destruct (Ascii.eqb c ","); [done|].
  pose proof (split_nonempty "," s). by destruct (split "," s).
Qed.

Lemma lstrip_lower (s : string) : lstrip (lower s) = lower (lstrip s).
Proof.
  induction s as [|c s IH]; [done|]. simpl.
  rewrite (proj1 (lower_char_class c)). by destruct (isspace c).
Qed.

Lemma rstrip_lower (s : string) : rstrip (lower s) = lower (rstrip s).
Proof.
  induction s as [|c s IH]; [done|]. simpl. rewrite IH.
  rewrite (proj1 (lower_char_class c)).
  destruct (rstrip s); simpl; [by destruct (isspace c)|done].
Qed.

Lemma strip_lower (s : string) : strip (lower s) = lower (strip s).
Proof. unfold strip. by rewrite lstrip_lower, rstrip_lower. Qed.

Lemma stripped_nonempty_lower (l : list string) :
  stripped_nonempty (lower <$> l) = lower <$> stripped_nonempty l.
Proof.
  induction l as [|x l IH]; [done|].
  rewrite fmap_cons, !stripped_nonempty_cons, fmap_app, IH.
  rewrite strip_lower, truthy_lower. by destruct (truthy (strip x)).
Qed.

Lemma filter_kws_of_lower (entry : string) :
  filter_kws_of (lower entry) = lower <$> filter_kws_of entry.
Proof.
  by rewrite !filter_kws_of_split, split_lower, stripped_nonempty_lower.
Qed.

Lemma existsb_lower (f : string → bool) (l : list string) :
  existsb f (lower <$> l) = existsb (λ k, f (lower k)) l.
Proof.
  induction l as [|k l IH]; [done|]. rewrite fmap_cons.
  cbn [existsb]. by rewrite IH.
Qed.

Lemma existsb_pointwise {A} (f g : A → bool) (l : list A) :
  (∀ x, f x = g x) → existsb f l = existsb g l.
Proof. intros H. induction l as [|x l IH]; [done|]. simpl. by rewrite H, IH. Qed.

Lemma matches_keywords_lower (img : ImageData) (kws : list string) (partial : bool) :
  matches_keywords img (lower <$> kws) partial = matches_keywords img kws partial.
Proof.
  unfold matches_keywords. destruct kws as [|k0 kws]; [done|].
  change (lower <$> k0 :: kws) with (lower k0 :: (lower <$> kws)). cbv iota.
  change (lower k0 :: (lower <$> kws)) with (lower <$> k0 :: kws).
  destruct partial; rewrite existsb_lower; apply existsb_pointwise;
    intros k; by rewrite lower_idem.
Qed.

Lemma same_passes_same_view (self self' : ImageViewer) :
  all_images self' = all_images self →
  (∀ img, passes self' img = passes self img) →
  filtered_images (_apply_filters self') = filtered_images (_apply_filters self)
  ∧ duplicates_count (_apply_filters self') = duplicates_count (_apply_filters self).
Proof.
  intros Hall Hp.
  destruct (apply_filters_unfold self) as [-> ->].
  destruct (apply_filters_unfold self') as [-> ->].
  assert (passing self' = passing self) as ->; [|done].
  unfold passing. rewrite Hall. apply list_filter_iff. intros img. by rewrite Hp.
Qed.

(** X12.  The case of the letters in the filter text does not matter: the
    text in lower case gives the same filtered list and the same count of
    duplicates. *)
Theorem filter_text_case_is_ignored (images : list ImageData) (entry : string)
    (min_rank : Z) (partial : bool) :
  filtered_images (viewer_with images (lower entry) min_rank partial)
  = filtered_images (viewer_with images entry min_rank partial)
  ∧ duplicates_count (viewer_with images (lower entry) min_rank partial)
    = duplicates_count (viewer_with images entry min_rank partial).
Proof.
  unfold viewer_with. apply same_passes_same_view; [done|].
  intros img. unfold passes. simpl.
  by rewrite filter_kws_of_lower, matches_keywords_lower.
Qed.

(** X13.  A filter text of commas and white space only filters nothing:
    the view is that of an empty entry, and a record passes exactly when
    its rank is at least the minimum. *)
Theorem blank_filter_text_is_no_filter (images : list ImageData) (entry : string)
    (min_rank : Z) (partial : bool) :
  Forall (λ c, isspace c = true ∨ c = ","%char) (chars entry) →
  filtered_images (viewer_with images entry min_rank partial)
  = filtered_images (viewer_with images "" min_rank partial)
  ∧ duplicates_count (viewer_with images entry min_rank partial)
    = duplicates_count (viewer_with images "" min_rank partial)
  ∧ ∀ img, matches_keywords img (filter_kws_of entry) partial
           && matches_rank img min_rank
           = (rank img >=? min_rank)%Z.
Proof.
  intros Hblank.
  assert (filter_kws_of entry = []) as Hnone
    by (rewrite filter_kws_of_split; by apply blank_text_no_parts).
  split; [|split].
  - unfold viewer_with. apply same_passes_same_view; [done|].
    intros img. unfold passes. simpl. by rewrite Hnone.
  - unfold viewer_with. apply same_passes_same_view; [done|].
    intros img. unfold passes. simpl. by rewrite Hnone.
  - intros img. by rewrite Hnone.
Qed.

(** X13 on an entry of blanks and commas. *)
Lemma blank_filter_text_is_no_filter_witness :
  Forall (λ c, isspace c = true ∨ c = ","%char) (chars " ,, ")
  ∧ filtered_images (viewer_with sample_images " ,, " 1 false) = sample_images.
Proof.
  assert (Forall (λ c, isspace c = true ∨ c = ","%char) (chars " ,, ")) as H.
  { repeat constructor; by (left + right). }
  split; [exact H|].
  rewrite (proj1 (blank_filter_text_is_no_filter sample_images " ,, " 1 false H)).
  reflexivity.
Defined.

(** ** The viewer: navigation *)

Lemma apply_filters_fields (self : ImageViewer) :
  all_images (_apply_filters self) = all_images self
  ∧ keyword_entry (_apply_filters self) = keyword_entry self
  ∧ rank_var (_apply_filters self) = rank_var self
  ∧ partial_match (_apply_filters self) = partial_match self
  ∧ current_index (_apply_filters self) = 0%nat.
Proof.
  unfold _apply_filters.
  by destruct (foldl _ _ (all_images self)) as [[? ?] ?].
Qed.

Lemma apply_filters_reads (self self' : ImageViewer) :
  all_images self' = all_images self →
  keyword_entry self' = keyword_entry self →
  rank_var self' = rank_var self →
  partial_match self' = partial_match self →
  filtered_images (_apply_filters self') = filtered_images (_apply_filters self)
  ∧ duplicates_count (_apply_filters self') = duplicates_count (_apply_filters self).
Proof.
  intros Ha Hk Hr Hp. apply same_passes_same_view; [done|].
  intros img. unfold passes. by rewrite Hk, Hr, Hp.
Qed.

Lemma apply_filters_in_sync (self : ImageViewer) : in_sync (_apply_filters self).
Proof.
  destruct (apply_filters_fields self) as (Ha & Hk & Hr & Hp & _).
  destruct (apply_filters_reads self (_apply_filters self) Ha Hk Hr Hp) as [H1 H2].
  by split.
Qed.

Lemma apply_filters_index (self : ImageViewer) : index_in_range (_apply_filters self).
Proof.
  destruct (apply_filters_fields self) as (_ & _ & _ & _ & Hi).
  unfold index_in_range. rewrite Hi.
  destruct (filtered_images (_apply_filters self)); [by right|left; simpl; lia].
Qed.

Lemma with_index_in_sync (self : ImageViewer) (i : nat) :
  in_sync self → in_sync (with_index self i).
Proof.
  intros [H1 H2]. by split.
Qed.

Lemma on_event_keeps (images : list ImageData) (self : ImageViewer) (ev : event) :
  all_images self = images ∧ index_in_range self ∧ in_sync self →
  all_images (on_event self ev) = images
  ∧ index_in_range (on_event self ev) ∧ in_sync (on_event self ev).
Proof.
  intros (Ha & Hi & Hs).
  destruct ev; simpl; unfold _clear_filters, _on_filter_change;
    try (split; [by rewrite (proj1 (apply_filters_fields _))|];
         split; [apply apply_filters_index | apply apply_filters_in_sync]).
  - unfold _prev_image. destruct (Z.gtb_spec (Z.of_nat (current_index self)) 0).
    + split; [done|]. split; [|by apply with_index_in_sync].
      unfold index_in_range in *. simpl. destruct Hi as [Hi|[_ Hi]]; lia.
    + done.
  - unfold _next_image.
    destruct (Z.ltb_spec (Z.of_nat (current_index self))
                (Z.of_nat (length (filtered_images self)) - 1)).
    + split; [done|]. split; [|by apply with_index_in_sync].
      unfold index_in_range. simpl. lia.
    + done.
  - unfold _goto_index.
    destruct (Z.leb_spec 0 i), (Z.ltb_spec i (Z.of_nat (length (filtered_images self))));
      simpl; try done.
    split; [done|]. split; [|by apply with_index_in_sync].
    unfold index_in_range. simpl. lia.
Qed.

(** X14.  Whatever the user does, from the start of the viewer on, the
    records stay those given, the index points into the filtered list (or
    is 0 when it is empty), and the filtered list and the count of
    duplicates are those of the filter widgets as they stand. *)
Theorem viewer_state_stays_consistent (images : list ImageData) (events : list event) :
  let v := foldl on_event (new_viewer images) events in
  all_images v = images ∧ index_in_range v ∧ in_sync v.
Proof.
  simpl. induction events as [|ev events IH] using rev_ind.
  - simpl. unfold new_viewer, viewer_with.
    split; [by rewrite (proj1 (apply_filters_fields _))|].
    split; [apply apply_filters_index | apply apply_filters_in_sync].
  - rewrite foldl_snoc. by apply on_event_keeps.
Qed.

Lemma with_index_same (self : ImageViewer) : with_index self (current_index self) = self.
Proof. by destruct self. Qed.

Lemma with_index_twice (self : ImageViewer) (i j : nat) :
  with_index (with_index self i) j = with_index self j.
Proof. done. Qed.

(** X15.  When the index points into the filtered list, the Previous
    button is enabled exactly when [_prev_image] moves, and the Next button
    exactly when [_next_image] moves; a move is by one image. *)
Theorem buttons_enabled_when_they_move (self : ImageViewer) :
  index_in_range self →
  ((nav_buttons self).1 = true ↔ _prev_image self ≠ self)
  ∧ ((nav_buttons self).2 = true ↔ _next_image self ≠ self)
  ∧ (_prev_image self ≠ self →
     S (current_index (_prev_image self)) = current_index self)
  ∧ (_next_image self ≠ self →
     current_index (_next_image self) = S (current_index self)).
Proof.
  intros Hi. unfold index_in_range in Hi.
  unfold nav_buttons, _prev_image, _next_image.
  destruct (Z.gtb_spec (Z.of_nat (current_index self)) 0) as [Hp|Hp];
    destruct (Z.ltb_spec (Z.of_nat (current_index self))
                (Z.of_nat (length (filtered_images self)) - 1)) as [Hn|Hn];
    destruct (filtered_images self) as [|x l] eqn:Hf; simpl in *;
    try (destruct Hi as [Hi|[Hi1 Hi2]]; simpl in *; lia);
    repeat split; try done; try lia;
    try (intros _ Heq; apply (f_equal current_index) in Heq; simpl in Heq; lia);
    try (intros _; lia).
Qed.

(** X15 on the viewer of [sample_images] at its start: only Next moves. *)
Lemma buttons_enabled_when_they_move_witness :
  index_in_range (new_viewer sample_images)
  ∧ nav_buttons (new_viewer sample_images) = (false, true)
  ∧ _prev_image (new_viewer sample_images) = new_viewer sample_images
  ∧ _next_image (new_viewer sample_images) ≠ new_viewer sample_images.
Proof.
  assert (index_in_range (new_viewer sample_images)) as Hi by (left; vm_compute; lia).
  split; [exact Hi|]. split; [reflexivity|]. split; [reflexivity|].
  apply (proj1 (proj2 (buttons_enabled_when_they_move _ Hi))). reflexivity.
Defined.

(** X16.  Next and Previous undo each other: when Next is enabled, Next
    then Previous leaves the viewer as it was, and when the index points
    into the list and Previous is enabled, so does Previous then Next. *)
Theorem next_and_previous_undo_each_other (self : ImageViewer) :
  ((nav_buttons self).2 = true → _prev_image (_next_image self) = self)
  ∧ (index_in_range self → (nav_buttons self).1 = true →
     _next_image (_prev_image self) = self).
Proof.
  unfold nav_buttons, _prev_image, _next_image. split.
  - destruct (filtered_images self) as [|x l] eqn:Hf; [done|]. simpl. intros Hn.
    rewrite Hn. simpl.
    rewrite (proj2 (Z.gtb_lt _ _)) by lia.
    rewrite with_index_twice.
    replace (current_index self + 1 - 1)%nat with (current_index self) by lia.
    apply with_index_same.
  - intros Hi. destruct (filtered_images self) as [|x l] eqn:Hf; [done|].
    simpl. intros Hp. rewrite Hp. simpl. rewrite ?Hf. simpl.
    apply Z.gtb_lt in Hp.
    destruct Hi as [Hi|[Hi _]]; [|congruence]. rewrite Hf in Hi. simpl in Hi.
    rewrite (proj2 (Z.ltb_lt _ _)) by lia.
    rewrite with_index_twice.
    replace (current_index self - 1 + 1)%nat with (current_index self) by lia.
    apply with_index_same.
Qed.

(** X16 on the viewer of [sample_images], from its first image and from
    its second. *)
Lemma next_and_previous_undo_each_other_witness :
  let v := new_viewer sample_images in
  _prev_image (_next_image v) = v
  ∧ _next_image (_prev_image (_next_image v)) = _next_image v.
Proof.
  cbv zeta. split.
  - apply (proj1 (next_and_previous_undo_each_other (new_viewer sample_images))).
    reflexivity.
  - apply (proj2 (next_and_previous_undo_each_other
                    (_next_image (new_viewer sample_images)))).
    + left. vm_compute. lia.
    + reflexivity.
Defined.

(** X17.  The Clear button empties the entry, sets the minimum rank to 1
    and exact matching, and goes to the first image; the records that then
    pass are those of rank at least 1, so when every record has such a
    rank, the filtered list and the duplicates are all the records. *)
Theorem clear_shows_every_ranked_record (self : ImageViewer) :
  let v := _clear_filters self in
  keyword_entry v = "" ∧ rank_var v = 1%Z ∧ partial_match v = false
  ∧ current_index v = 0%nat
  ∧ passing v = filter (λ img, (1 ≤ rank img)%Z) (all_images self)
  ∧ ((∀ img, img ∈ all_images self → (1 ≤ rank img)%Z) →
     (length (filtered_images v) + duplicates_count v = length (all_images self))%nat).
Proof.
  simpl. unfold _clear_filters, _on_filter_change.
  set (cleared := with_widgets self "" 1 false).
  destruct (apply_filters_fields cleared) as (Ha & Hk & Hr & Hp & Hi).
  split; [done|]. split; [done|]. split; [done|]. split; [done|].
  assert (passing (_apply_filters cleared)
          = filter (λ img, (1 ≤ rank img)%Z) (all_images self)) as Hpass.
  { unfold passing. rewrite Ha. simpl. apply list_filter_iff. intros img.
    unfold passes, matches_rank. rewrite Hk, Hr, Hp. simpl. lia. }
  split; [done|]. intros Hall.
  destruct (apply_filters_unfold cleared) as [-> ->].
  rewrite (ki_count _ _ _ (keep_inv_foldl hash_code (passing cleared))).
  assert (passing cleared = all_images self) as ->; [|done].
  unfold passing. simpl. revert Hall. generalize (all_images self). intros l Hall.
  induction l as [|img l IH]; [done|].
  rewrite filter_cons, decide_True.
  - f_equal. apply IH. intros i Hin. by apply Hall, list_elem_of_further.
  - unfold passes, matches_rank. simpl.
    specialize (Hall img (list_elem_of_here _ _)). lia.
Qed.

(** X17 on [sample_images] after a filter that shows nothing. *)
Lemma clear_shows_every_ranked_record_witness :
  let filtered_out := viewer_with sample_images "bird" 9 true in
  filtered_images filtered_out = []
  ∧ (∀ img, img ∈ sample_images → (1 ≤ rank img)%Z)
  ∧ (length (filtered_images (_clear_filters filtered_out))
     + duplicates_count (_clear_filters filtered_out) = 2)%nat.
Proof.
  cbv zeta.
  assert (∀ img, img ∈ sample_images → (1 ≤ rank img)%Z) as Hall.
  { intros img Hin. unfold sample_images in Hin.
    apply elem_of_cons in Hin as [->|Hin]; [simpl; lia|].
    apply list_elem_of_singleton in Hin as ->. simpl. lia. }
  split; [reflexivity|]. split; [exact Hall|].
  exact (proj2 (proj2 (proj2 (proj2 (proj2
    (clear_shows_every_ranked_record (viewer_with sample_images "bird" 9 true))))))
    Hall).
Defined.

(** ** The viewer: image paths and the thumbnail cache *)

(** X18.  The path [_resolve_image_path] returns exists: it is the path
    kept in the record if that exists, else the file name as written, else
    the file name in the working directory; it returns nothing when none
    of them exists. *)
Theorem resolved_image_path_exists (w : World) (img_data : ImageData) :
  let stored_exists :=
    match full_path img_data with
    | Some fp => truthy fp && path_exists w fp
    | None => false
    end in
  let in_cwd := path_join w (path_cwd w) (filename img_data) in
  _resolve_image_path w img_data =
    (if stored_exists then full_path img_data
     else if path_exists w (filename img_data) then Some (filename img_data)
     else if path_exists w in_cwd then Some in_cwd
     else None)
  ∧ (∀ p, _resolve_image_path w img_data = Some p → path_exists w p = true).
Proof.
  simpl. unfold _resolve_image_path. simpl.
  destruct (full_path img_data) as [fp|]; [destruct (truthy fp && path_exists w fp) eqn:Hfp|];
    simpl.
  - split; [done|]. intros p [= <-]. by apply andb_true_iff in Hfp as [_ ?].
  - destruct (path_exists w (filename img_data)) eqn:H1; simpl.
    { split; [done|]. by intros p [= <-]. }
    destruct (path_exists w (path_join w (path_cwd w) (filename img_data))) eqn:H2; simpl.
    { split; [done|]. by intros p [= <-]. }
    done.
  - destruct (path_exists w (filename img_data)) eqn:H1; simpl.
    { split; [done|]. by intros p [= <-]. }
    destruct (path_exists w (path_join w (path_cwd w) (filename img_data))) eqn:H2; simpl.
    { split; [done|]. by intros p [= <-]. }
    done.
Qed.

Section ThumbnailFacts.
Context {image : Type}.
Implicit Types (g : Imaging image) (cache : gmap (string * Z) image).

Lemma get_thumbnail_spec g cache (path : string) (max_h : Z) :
  let r := _get_thumbnail g cache path max_h in
  r.2 !! (path, max_h) = Some r.1
  ∧ cache ⊆ r.2
  ∧ (∀ key, key ≠ (path, max_h) → r.2 !! key = cache !! key)
  ∧ (∀ cached, cache !! (path, max_h) = Some cached → r = (cached, cache)).
Proof.
  simpl. unfold _get_thumbnail.
  destruct (cache !! (path, max_h)) as [cached|] eqn:Hc; simpl.
  - split; [done|]. split; [done|]. split; [done|]. by intros ? [= <-].
  - destruct (load_thumbnail g path max_h) as [tkimg|e]; simpl.
    + split; [apply lookup_insert_eq|]. split; [by apply insert_subseteq|].
      split; [|done]. intros key Hkey. by apply lookup_insert_ne.
    + split; [apply lookup_insert_eq|]. split; [by apply insert_subseteq|].
      split; [|done]. intros key Hkey. by apply lookup_insert_ne.
Qed.

Lemma render_tile_grows (w : World) g (tiles : list (Tile image)) cache
    (img_data : ImageData) :
  ∃ tile,
    (render_tile w g (tiles, cache) img_data).1 = tiles ++ [tile]
    ∧ tile_caption tile = "R " +:+ str_of_int (rank img_data)
    ∧ (is_Some (tile_image tile)
       ↔ PIL_AVAILABLE w = true ∧ is_Some (_resolve_image_path w img_data))
    ∧ cache ⊆ (render_tile w g (tiles, cache) img_data).2
    ∧ ∀ cache2, (render_tile w g (tiles, cache) img_data).2 ⊆ cache2 →
                render_tile w g (tiles, cache2) img_data = (tiles ++ [tile], cache2).
Proof.
  unfold render_tile.
  destruct (_resolve_image_path w img_data) as [p|]; [destruct (PIL_AVAILABLE w)|].
  - destruct (get_thumbnail_spec g cache p 84) as (Hin & Hsub & _ & _).
    destruct (_get_thumbnail g cache p 84) as [thumb cache'] eqn:Hget. simpl in *.
    eexists. split; [done|]. simpl. split; [done|].
    split; [by split; eauto|]. split; [done|].
    intros cache2 Hsub2.
    destruct (get_thumbnail_spec g cache2 p 84) as (_ & _ & _ & Hhit).
    by rewrite (Hhit thumb (lookup_weaken _ _ _ _ Hin Hsub2)).
  - eexists. split; [done|]. simpl. split; [done|].
    split; [split; [by intros [? ?]|by intros [? _]]|]. by split.
  - eexists. split; [done|]. simpl. split; [done|].
    split; [split; [by intros [? ?]|by intros [_ [? ?]]]|]. by split.
Qed.

Lemma render_fold_spec (w : World) g (imgs : list ImageData)
    (tiles : list (Tile image)) cache :
  ∃ new_tiles,
    (foldl (render_tile w g) (tiles, cache) imgs).1 = tiles ++ new_tiles
    ∧ Forall2 (λ img_data tile,
                 tile_caption tile = "R " +:+ str_of_int (rank img_data)
                 ∧ (is_Some (tile_image tile)
                    ↔ PIL_AVAILABLE w = true ∧ is_Some (_resolve_image_path w img_data)))
              imgs new_tiles
    ∧ cache ⊆ (foldl (render_tile w g) (tiles, cache) imgs).2
    ∧ ∀ cache2, (foldl (render_tile w g) (tiles, cache) imgs).2 ⊆ cache2 →
                foldl (render_tile w g) (tiles, cache2) imgs = (tiles ++ new_tiles, cache2).
Proof.
  revert tiles cache. induction imgs as [|img_data imgs IH]; intros tiles cache.
  - exists []. simpl. rewrite app_nil_r. split; [done|]. split; [constructor|].
    by split.
  - cbn [foldl].
    destruct (render_tile_grows w g tiles cache img_data)
      as (tile & Htiles & Hcap & Hpic & Hsub & Hstable).
    destruct (render_tile w g (tiles, cache) img_data) as [tiles1 cache1] eqn:Hstep.
    cbn [fst snd] in *. subst tiles1.
    destruct (IH (tiles ++ [tile]) cache1) as (rest & Hrest & Hall & Hsub' & Hstable').
    exists (tile :: rest). rewrite Hrest, <- app_assoc. split; [done|].
    split; [by constructor|]. split; [by etransitivity|].
    intros cache2 Hsub2.
    rewrite (Hstable cache2) by (by etransitivity).
    rewrite (Hstable' cache2 Hsub2). by rewrite <- app_assoc.
Qed.

End ThumbnailFacts.

(** X19.  [_get_thumbnail] answers from the cache when the path and height
    are in it, without touching the cache; otherwise it stores what it
    returns, the loaded image or the blank one when loading fails, and
    leaves the other entries alone.  Asking again gives the same image. *)
Theorem thumbnail_is_cached {image : Type} (g : Imaging image)
    (cache : gmap (string * Z) image) (path : string) (max_h : Z) :
  let r := _get_thumbnail g cache path max_h in
  r.2 !! (path, max_h) = Some r.1
  ∧ (∀ key, key ≠ (path, max_h) → r.2 !! key = cache !! key)
  ∧ (∀ cached, cache !! (path, max_h) = Some cached → r = (cached, cache))
  ∧ (∀ e, cache !! (path, max_h) = None → load_thumbnail g path max_h = Raises e →
          r.1 = blank_thumbnail g max_h)
  ∧ _get_thumbnail g r.2 path max_h = r.
Proof.
  destruct (get_thumbnail_spec g cache path max_h) as (Hin & _ & Hother & Hhit).
  simpl. split; [done|]. split; [done|]. split; [done|]. split.
  - intros e Hmiss Hfail. unfold _get_thumbnail. by rewrite Hmiss, Hfail.
  - destruct (get_thumbnail_spec g (_get_thumbnail g cache path max_h).2 path max_h)
      as (_ & _ & _ & Hagain).
    rewrite (Hagain _ Hin). by destruct (_get_thumbnail g cache path max_h).
Qed.

(** X20.  [_render_thumbnails] makes one tile for each filtered image, in
    order, captioned with its rank; a tile has a picture exactly when
    Pillow is there and the image file is found.  The cache only grows,
    and rendering again with the cache it left gives the same tiles and
    leaves the cache as it is. *)
Theorem render_thumbnails_uses_cache {image : Type} (w : World) (g : Imaging image)
    (self : ImageViewer) (cache : gmap (string * Z) image) :
  let r := _render_thumbnails w g self cache in
  Forall2 (λ img_data tile,
             tile_caption tile = "R " +:+ str_of_int (rank img_data)
             ∧ (is_Some (tile_image tile)
                ↔ PIL_AVAILABLE w = true ∧ is_Some (_resolve_image_path w img_data)))
          (filtered_images self) r.1
  ∧ cache ⊆ r.2
  ∧ _render_thumbnails w g self r.2 = r.
Proof.
  simpl. unfold _render_thumbnails.
  destruct (render_fold_spec w g (filtered_images self) [] cache)
    as (tiles & Htiles & Hall & Hsub & Hstable).
  simpl in Htiles. rewrite Htiles. split; [done|]. split; [done|].
  rewrite (Hstable _ (reflexivity _)). simpl.
  rewrite <- Htiles. by destruct (foldl _ _ (filtered_images self)).
Qed.

(** ** [extract_text_from_response]: when it raises *)

(** X21.  [extract_text_from_response] raises in one case only: the
    response is a [dict] without a [response] string and without a string
    under [message.content], and its [choices] is a non-empty list whose
    first entry is no [dict]; the exception is the [AttributeError] of
    that entry. *)
Theorem extract_text_raises_only_on_bad_choice (resp_json : json) (e : exn) :
  extract_text_from_response resp_json = Raises e
  ↔ ∃ d first rest,
      resp_json = JDict d
      ∧ str_at d "response" = None
      ∧ content_under d "message" = None
      ∧ dict_get d "choices" = Some (JList (first :: rest))
      ∧ (∀ f, first ≠ JDict f)
      ∧ e = AttributeError first "get".
Proof.
  split.
  - unfold extract_text_from_response.
    destruct resp_json as [| | | | | |d]; try done.
    destruct (str_at d "response") eqn:H1; [done|].
    destruct (content_under d "message") eqn:H2; [done|].
    destruct (dict_get d "choices") as [[| | | | |[|first rest]|]|] eqn:H3; try done.
    destruct first as [| | | | | |f] eqn:Hf;
      try (intros [= <-]; exists d; eexists; exists rest; by repeat split).
    destruct (content_under f "message"); [done|]. by destruct (str_at f "content").
  - intros (d & first & rest & -> & H1 & H2 & H3 & Hnd & ->).
    unfold extract_text_from_response. rewrite H1, H2, H3.
    destruct first; try done. by destruct (Hnd items).
Qed.

(** ** [run_for_file]: what depends on [--debug] *)

Lemma file_rows_timeout (w : World) (args args' : Args) (path : string) :
  timeout args' = timeout args → file_rows w args' path = file_rows w args path.
Proof. intros H. unfold file_rows, row_tail. by rewrite H. Qed.

Lemma handle_failure_quiet w args full_path e (o : Output) :
  debug args = false →
  stderr_lines (handle_failure w args full_path e o).2 = stderr_lines o.
Proof. intros Hd. destruct e; unfold handle_failure; by rewrite Hd. Qed.

Lemma run_for_file_quiet w path args (o : Output) :
  debug args = false → readable w path = true →
  stderr_lines (run_for_file w path args o).2 = stderr_lines o.
Proof.
  intros Hd Hread. unfold readable in Hread.
  unfold run_for_file, read_image, request_and_write.
  unfold mbind, io_bind, mret, io_ret, bind, catch, lift, ret, when.
  rewrite Hd.
  destruct (read_b64 w path) as [image_b64|e0]; [|done]. simpl.
  destruct (do_request w chat_url _ (timeout args)) as [[[status headers] resp_bytes]|e1];
    simpl; [|by rewrite handle_failure_quiet].
  destruct (json_loads w resp_bytes) as [resp_json|e2]; simpl;
    [|by rewrite handle_failure_quiet].
  destruct (extract_text_from_response resp_json) as [[text|]|e3]; simpl;
    [| done | by rewrite handle_failure_quiet].
  destruct (truthy text); simpl; [|done].
  destruct (file_sha256_hex w path) as [sha|e4]; simpl;
    [done | by rewrite handle_failure_quiet].
Qed.

(** X22.  [--debug] changes standard error only: with the same timeout
    the rows written for a file are the same with and without it, and
    without it a file that can be read prints nothing on standard error,
    whatever fails later. *)
Theorem debug_changes_only_stderr (w : World) (path : string) (args args' : Args)
    (o : Output) :
  timeout args' = timeout args →
  stdout_rows (run_for_file w path args' o).2 = stdout_rows (run_for_file w path args o).2
  ∧ (debug args = false → readable w path = true →
     stderr_lines (run_for_file w path args o).2 = stderr_lines o).
Proof.
  intros Ht. split; [|apply run_for_file_quiet].
  destruct (run_for_file_spec w path args o) as (_ & -> & _).
  destruct (run_for_file_spec w path args' o) as (_ & -> & _).
  by rewrite (file_rows_timeout w args args' path Ht).
Qed.

(** X22 on a refused connection, with and without [--debug]. *)
Lemma debug_changes_only_stderr_witness :
  let w := sample_world true in
  let quiet := sample_args ["a.jpg"] in
  let loud := {| paths := ["a.jpg"]; debug := true; timeout := DEFAULT_TIMEOUT |} in
  stdout_rows (run_for_file w "a.jpg" loud no_output).2
  = stdout_rows (run_for_file w "a.jpg" quiet no_output).2
  ∧ stderr_lines (run_for_file w "a.jpg" quiet no_output).2 = []
  ∧ length (stderr_lines (run_for_file w "a.jpg" loud no_output).2) = 3%nat.
Proof.
  cbv zeta.
  destruct (debug_changes_only_stderr (sample_world true) "a.jpg"
              (sample_args ["a.jpg"])
              {| paths := ["a.jpg"]; debug := true; timeout := DEFAULT_TIMEOUT |}
              no_output eq_refl) as [Hrows Hquiet].
  split; [exact Hrows|]. split; [exact (Hquiet eq_refl eq_refl) | reflexivity].
Defined.

(** ** The batch of the extraction mode *)

Lemma file_rows_shape (w : World) (args : Args) (path : string) :
  file_rows w args path =
  if readable w path
  then [path_resolve w path :: match read_b64 w path with
                               | Returns image_b64 => row_tail w args path image_b64
                               | Raises _ => []
                               end]
  else [].
Proof. unfold file_rows, readable. by destruct (read_b64 w path). Qed.

Lemma row_tail_nonempty (w : World) (args : Args) (path image_b64 : string) :
  row_tail w args path image_b64 ≠ [].
Proof.
  unfold row_tail.
  destruct (do_request w chat_url _ (timeout args)) as [[[status headers] resp_bytes]|e1];
    [|done].
  destruct (json_loads w resp_bytes) as [resp_json|e2]; [|done].
  destruct (extract_text_from_response resp_json) as [[text|]|e3]; try done.
  destruct (truthy text); [|done].
  destruct (file_sha256_hex w path) as [sha|e4]; [|done].
  rewrite process_keywords_unfold. by intros [? ?]%app_eq_nil.
Qed.

(** X23.  The batch writes one row for each file that can be read, none
    for the others, in the order of the files; a row starts with the
    resolved path of its file and has at least one more field. *)
Theorem batch_rows_follow_files (w : World) (args : Args) (imgs : list string)
    (o : Output) :
  let after := (for_each imgs (λ img, run_for_file w img args) o).2 in
  ∃ rows,
    stdout_rows after = stdout_rows o ++ rows
    ∧ head <$> rows
      = (λ img, Some (path_resolve w img)) <$> filter (λ img, readable w img = true) imgs
    ∧ Forall (λ row, (2 ≤ length row)%nat) rows.
Proof.
  simpl.
  destruct (for_each_run_for_file w args imgs o) as (_ & Hout & _).
  exists (mjoin (file_rows w args <$> imgs)). split; [done|]. clear Hout.
  induction imgs as [|img imgs [IH1 IH2]]; [by split|].
  change (mjoin (file_rows w args <$> img :: imgs))
    with (file_rows w args img ++ mjoin (file_rows w args <$> imgs)).
  rewrite fmap_app, IH1, filter_cons, file_rows_shape.
  destruct (readable w img) eqn:Hr.
  - rewrite decide_True by done. split; [done|].
    apply Forall_app. split; [|done]. constructor; [|done]. simpl.
    unfold readable in Hr. destruct (read_b64 w img) as [b64|]; [|done].
    pose proof (row_tail_nonempty w args img b64).
    destruct (row_tail w args img b64); [done|simpl; lia].
  - rewrite decide_False by done. by split.
Qed.

(** X24.  When the answer holds no text, or an empty text, the row of the
    file is its path and [[No text extracted]], and the hash of the file
    plays no part. *)
Theorem no_text_gives_placeholder_row (w : World) (args : Args) (path : string)
    (o : Output) (image_b64 : string) (status : Z) (headers : list (string * string))
    (resp_bytes : string) (resp_json : json) (extracted : option string) :
  read_b64 w path = Returns image_b64 →
  do_request w chat_url (build_chat_payload MODEL_NAME PROMPT_TEMPLATE image_b64)
             (timeout args) = Returns (status, headers, resp_bytes) →
  json_loads w resp_bytes = Returns resp_json →
  extract_text_from_response resp_json = Returns extracted →
  extracted = None ∨ extracted = Some "" →
  stdout_rows (run_for_file w path args o).2
  = stdout_rows o ++ [[path_resolve w path; "[No text extracted]"]].
Proof.
  intros Hr Hq Hj Hx Hnone.
  destruct (run_for_file_spec w path args o) as (_ & -> & _).
  unfold file_rows, row_tail. rewrite Hr, Hq, Hj, Hx.
  by destruct Hnone as [->| ->].
Qed.

(** X24 on an answer without any of the known shapes. *)
Lemma no_text_gives_placeholder_row_witness :
  let w := answering_world (JDict [("done", JBool true)]) in
  stdout_rows (run_for_file w "a.jpg" (sample_args ["a.jpg"]) no_output).2
  = [["/home/u/a.jpg"; "[No text extracted]"]].
Proof.
  cbv zeta.
  apply (no_text_gives_placeholder_row
           (answering_world (JDict [("done", JBool true)]))
           (sample_args ["a.jpg"]) "a.jpg" no_output "QUJD" 200%Z
           [("Content-Type", "application/json")] "{}"
           (JDict [("done", JBool true)]) None); try reflexivity.
  by left.
Defined.

(** ** [main]: what each mode does *)





(** ** [expand_wildcards_and_folders] *)









(** ** [main]: the choice of the mode *)

Lemma classify_other_grows (w : World) (l : list string)
    (st st' : list string * list string) :
  st.2 ≠ [] → fold_raising (classify_step w) st l = Returns st' → st'.2 ≠ [].
Proof.
  revert st. induction l as [|s l IH]; intros [txt other] Hne; cbn [fold_raising].
  { by intros [= <-]. }
  destruct (classify_step w (txt, other) s) as [st1|e] eqn:Hstep; [|done].
  apply IH. unfold classify_step in Hstep. simpl in Hne.
  destruct (endswith s "*.txt").
  - destruct (path_glob w s); [|done]. by injection Hstep as <-.
  - destruct (bool_decide _ && path_exists w s); injection Hstep as <-; [done|].
    simpl. by intros [? ?]%app_eq_nil.
Qed.

(** X27.  One argument that is neither a [*.txt] pattern nor the name of
    an existing [.txt] file is enough for [main] not to take the branch of
    the viewer, whatever the other arguments are. *)
Theorem other_argument_forces_extraction (w : World) (args : Args) (s : string) :
  s ∈ paths args →
  endswith s "*.txt" = false →
  lower (path_suffix w s) ≠ ".txt" ∨ path_exists w s = false →
  viewer_mode w args = false.
Proof.
  intros Hin Hpat Hnot. unfold viewer_mode, classified.
  assert (∀ l st st', s ∈ l → fold_raising (classify_step w) st l = Returns st' →
                      st'.2 ≠ []) as H.
  { induction l as [|x l IH]; intros [txt other] st' Hl; [by apply elem_of_nil in Hl|].
    cbn [fold_raising].
    destruct (classify_step w (txt, other) x) as [st1|e] eqn:Hstep; [|done].
    apply elem_of_cons in Hl as [<-|Hl]; [|by apply IH].
    apply classify_other_grows. unfold classify_step in Hstep. rewrite Hpat in Hstep.
    assert (bool_decide (lower (path_suffix w s) = ".txt") && path_exists w s = false)
      as Hno.
    { destruct Hnot as [Hn| ->]; [|apply andb_false_r].
      by rewrite bool_decide_eq_false_2. }
    rewrite Hno in Hstep. injection Hstep as <-. simpl. by intros [? ?]%app_eq_nil. }
  specialize (H (paths args) ([], [])).
  destruct (fold_raising (classify_step w) ([], []) (paths args)) as [[txt other]|e];
    [|done].
  specialize (H _ Hin eq_refl).
  simpl in *. destruct other; [done|]. simpl. apply andb_false_r.
Qed.

(** X27 on a CSV file given together with an image. *)
Lemma other_argument_forces_extraction_witness :
  viewer_mode (sample_world true) (sample_args ["data.txt"; "a.jpg"]) = false.
Proof.
  apply (other_argument_forces_extraction (sample_world true)
           (sample_args ["data.txt"; "a.jpg"]) "a.jpg").
  - apply list_elem_of_further, list_elem_of_here.
  - reflexivity.
  - left. vm_compute. discriminate.
Defined.
